(** * minishell: the tokenizer and the operator engine of shell.c

    A shallow embedding of [tokens.c] and [shell.c].  Character buffers
    ([char buf[MAX_CHAR]]) are Rocq strings holding the bytes of the array,
    NUL bytes included; a NULL-terminated [char **] is the list of its
    entries before the NULL, and an array that was filled without a NULL is
    read with the cells that lie behind the written entries; process and
    file-system calls are the nodes of a tree of system calls. *)

From Stdlib Require Import Bool Arith ZArith Lia List Ascii String.
Import ListNotations.
Open Scope string_scope.

(** ** Characters and buffers *)

(** [tokens.h]: [#define MAX_CHAR 256]. *)
Definition MAX_CHAR : nat := 256.

Definition NUL : ascii := "000"%char.
Definition newline : ascii := "010"%char.
Definition dquote : ascii := "034"%char.
Definition space : ascii := " "%char.
Definition backslash : ascii := "\"%char.

(** [buf[i]].  A buffer shorter than the C array stands for the array whose
    remaining bytes are NUL. *)
Definition char_at (buf : string) (i : nat) : ascii :=
  match String.get i buf with
  | Some c => c
  | None => NUL
  end.

(** The C string held in a buffer: the bytes before the first NUL. *)
Fixpoint cstr (buf : string) : string :=
  match buf with
  | EmptyString => EmptyString
  | String c rest => if Ascii.eqb c NUL then EmptyString else String c (cstr rest)
  end.

(** [strlen(buf)]. *)
Definition strlen (buf : string) : nat := String.length (cstr buf).

(** [c] occurs in [s]. *)
Fixpoint contains (c : ascii) (s : string) : bool :=
  match s with
  | EmptyString => false
  | String d rest => Ascii.eqb d c || contains c rest
  end.

(** [strncat(result, &ch, 1)] for a byte [ch] that is not NUL. *)
Definition strncat1 (result : string) (ch : ascii) : string :=
  result ++ String ch EmptyString.

(** [s] between two double quotes, to write input lines down. *)
Definition quoted (s : string) : string :=
  String dquote (s ++ String dquote EmptyString).

(** ** tokens.c *)

Module Tokens.

(** What a call that may end the process gives back. *)
Inductive outcome (A : Type) : Type :=
| Normal (a : A)
| Exited (status : Z)
| OutOfFuel.
Arguments Normal {A} a.
Arguments Exited {A} status.
Arguments OutOfFuel {A}.

(** Modelled from the spec: [vect_t] of vect.h, which is not part of the
    sources; a growable sequence of strings, [vect_new] the empty one and
    [vect_add] appending a copy at the end. *)
Definition vect_t : Type := list string.
Definition vect_new : vect_t := [].
Definition vect_add (vector : vect_t) (s : string) : vect_t := (vector ++ [s])%list.

(** [special_char]: the C comparison chain yields 0 or 1. *)
Definition special_char (ch : ascii) : Z :=
  if (Ascii.eqb ch "<" || Ascii.eqb ch ">" || Ascii.eqb ch ";"
      || Ascii.eqb ch "(" || Ascii.eqb ch ")" || Ascii.eqb ch "|")%char
  then 1%Z else 0%Z.

(** [add_and_reset]: the vector and the token buffer after the call. *)
Definition add_and_reset (vector : vect_t) (ch : string) : vect_t * string :=
  if negb (Nat.eqb (String.length ch) 0)
  then (vect_add vector ch, EmptyString)
  else (vector, ch).

(** The [while] loop of [handle_quotes]; [vect] is not used by the C code.
    Gives the token buffer and the index at the end of the loop. *)
Fixpoint handle_quotes_loop (fuel : nat) (curr_string result : string) (i : nat)
  : outcome (string * nat) :=
  if negb (Ascii.eqb (char_at curr_string (i + 1)) NUL) then
    match fuel with
    | O => OutOfFuel
    | S fuel' =>
        if Ascii.eqb (char_at curr_string (i + 1)) NUL then Exited 1
        else if negb (Ascii.eqb (char_at curr_string (i + 1)) dquote) then
          handle_quotes_loop fuel' curr_string
            (strncat1 result (char_at curr_string (i + 1))) (i + 1)
        else Normal (result, i)
    end
  else Normal (result, i).

(** [handle_quotes]: returns the index after the loop plus two. *)
Definition handle_quotes (vect : vect_t) (curr_string result : string) (i : nat)
  : outcome (string * nat) :=
  match handle_quotes_loop (String.length curr_string) curr_string result i with
  | Normal (result', i') => Normal (result', i' + 2)
  | Exited st => Exited st
  | OutOfFuel => OutOfFuel
  end.

(** The [while] loop of [tokenize]. *)
Fixpoint tokenize_loop (fuel : nat) (curr_string : string)
    (vector : vect_t) (result : string) (i : nat) : outcome (vect_t * string) :=
  if (i <? MAX_CHAR)%nat && negb (Ascii.eqb (char_at curr_string i) NUL) then
    match fuel with
    | O => OutOfFuel
    | S fuel' =>
        if Ascii.eqb (char_at curr_string i) space then
          let '(vector, result) := add_and_reset vector result in
          tokenize_loop fuel' curr_string vector result (i + 1)
        else if Ascii.eqb (char_at curr_string i) backslash
                && (i + 1 <? MAX_CHAR)%nat
                && negb (Ascii.eqb (char_at curr_string (i + 1)) NUL)
                && Ascii.eqb (char_at curr_string (i + 1)) "t" then
          let '(vector, result) := add_and_reset vector result in
          tokenize_loop fuel' curr_string vector result (i + 2)
        else if Ascii.eqb (char_at curr_string i) dquote then
          let '(vector, result) := add_and_reset vector result in
          match handle_quotes vector curr_string result i with
          | Normal (result, i') =>
              tokenize_loop fuel' curr_string vector result i'
          | Exited st => Exited st
          | OutOfFuel => OutOfFuel
          end
        else if Z.eqb (special_char (char_at curr_string i)) 1 then
          let '(vector, result) := add_and_reset vector result in
          let result := strncat1 result (char_at curr_string i) in
          let '(vector, result) := add_and_reset vector result in
          tokenize_loop fuel' curr_string vector result (i + 1)
        else
          tokenize_loop fuel' curr_string vector
            (strncat1 result (char_at curr_string i)) (i + 1)
    end
  else Normal (vector, result).

(** [tokenize]. *)
Definition tokenize (curr_string : string) : outcome vect_t :=
  match tokenize_loop MAX_CHAR curr_string vect_new EmptyString 0 with
  | Normal (vector, result) => Normal (fst (add_and_reset vector result))
  | Exited st => Exited st
  | OutOfFuel => OutOfFuel
  end.

End Tokens.

(** ** shell.c *)

Module Shell.
Import Tokens.

Open Scope Z_scope.

(** *** System calls

    A process is the tree of the system calls it makes.  [fork] has the
    child's and the parent's continuation; [execvp] has only the continuation
    of a failed call, a successful one replaces the process image; [exit]
    and a failed [assert] end the process.

    [Cells] stands for the cells of an automatic [char *] array that lie
    behind the entries written to it, where the array is read up to its
    first NULL: the strings these cells point to, in order, or [None] when
    one of them points to no string or none of them is NULL.  What they
    hold is left over from earlier calls. *)

Inductive fd : Type :=
| Fd (n : Z)
| read_fd     (* pipe_fds[0] of the last [pipe] call *)
| write_fd.   (* pipe_fds[1] of the last [pipe] call *)

Inductive open_flags : Type :=
| O_RDONLY
| O_WRONLY_CREAT_TRUNC (mode : Z).

Inductive dir : Type :=
| Dir (path : string)
| Home.       (* getenv("HOME") *)

Inductive proc (A : Type) : Type :=
| Ret (a : A)
| Fork (child parent : proc A)
| Wait (k : proc A)
| Execvp (file : option string) (argv : list string) (failed : proc A)
| Printf (s : string) (k : proc A)
| Exit (status : Z)
| Abort
| Close (d : fd) (k : proc A)
| Open (path : option string) (flags : open_flags) (k : proc A)
| Pipe (k : proc A)
| Dup (d : fd) (k : proc A)
| Chdir (path : dir) (failed ok : proc A)
| Fopen (path : string) (failed ok : proc A)
| Fgets (k : option string -> proc A)   (* NULL, or the buffer as fgets left it *)
| Fclose (k : proc A)
| Uninit (k : string -> proc A)         (* an automatic array, not initialised *)
| Crash                                 (* a fault: NULL or no string handed to strcmp, fgets or execvp *)
| NoFuel
| Cells (k : option (list string) -> proc A).
Arguments Ret {A} a.
Arguments Fork {A} child parent.
Arguments Wait {A} k.
Arguments Execvp {A} file argv failed.
Arguments Printf {A} s k.
Arguments Exit {A} status.
Arguments Abort {A}.
Arguments Close {A} d k.
Arguments Open {A} path flags k.
Arguments Pipe {A} k.
Arguments Dup {A} d k.
Arguments Chdir {A} path failed ok.
Arguments Fopen {A} path failed ok.
Arguments Fgets {A} k.
Arguments Fclose {A} k.
Arguments Uninit {A} k.
Arguments Crash {A}.
Arguments NoFuel {A}.
Arguments Cells {A} k.

(** Sequencing: the rest of the C function runs in every process that
    comes back from the call. *)
Fixpoint bind {A B : Type} (m : proc A) (f : A -> proc B) : proc B :=
  match m with
  | Ret a => f a
  | Fork c p => Fork (bind c f) (bind p f)
  | Wait k => Wait (bind k f)
  | Execvp file argv failed => Execvp file argv (bind failed f)
  | Printf s k => Printf s (bind k f)
  | Exit st => Exit st
  | Abort => Abort
  | Close d k => Close d (bind k f)
  | Open path fl k => Open path fl (bind k f)
  | Pipe k => Pipe (bind k f)
  | Dup d k => Dup d (bind k f)
  | Chdir path failed ok => Chdir path (bind failed f) (bind ok f)
  | Fopen path failed ok => Fopen path (bind failed f) (bind ok f)
  | Fgets k => Fgets (fun r => bind (k r) f)
  | Fclose k => Fclose (bind k f)
  | Uninit k => Uninit (fun b => bind (k b) f)
  | Crash => Crash
  | NoFuel => NoFuel
  | Cells k => Cells (fun c => bind (k c) f)
  end.

Notation "x <- m ;; k" := (bind m (fun x => k))
  (at level 61, m at next level, right associativity).
Notation "' pat <- m ;; k" := (bind m (fun x => match x with pat => k end))
  (at level 61, pat pattern, m at next level, right associativity).
Notation "m ;;; k" := (bind m (fun _ => k))
  (at level 61, right associativity).

(** [a] is a value with which the calling process comes back from [t]. *)
Inductive returns {A : Type} : proc A -> A -> Prop :=
| returns_Ret a : returns (Ret a) a
| returns_Fork c p a : returns p a -> returns (Fork c p) a
| returns_Wait k a : returns k a -> returns (Wait k) a
| returns_Execvp file argv failed a :
    returns failed a -> returns (Execvp file argv failed) a
| returns_Printf s k a : returns k a -> returns (Printf s k) a
| returns_Close d k a : returns k a -> returns (Close d k) a
| returns_Open path fl k a : returns k a -> returns (Open path fl k) a
| returns_Pipe k a : returns k a -> returns (Pipe k) a
| returns_Dup d k a : returns k a -> returns (Dup d k) a
| returns_Chdir_failed path failed ok a :
    returns failed a -> returns (Chdir path failed ok) a
| returns_Chdir_ok path failed ok a :
    returns ok a -> returns (Chdir path failed ok) a
| returns_Fopen_failed path failed ok a :
    returns failed a -> returns (Fopen path failed ok) a
| returns_Fopen_ok path failed ok a :
    returns ok a -> returns (Fopen path failed ok) a
| returns_Fgets k r a : returns (k r) a -> returns (Fgets k) a
| returns_Fclose k a : returns k a -> returns (Fclose k) a
| returns_Uninit k b a : returns (k b) a -> returns (Uninit k) a
| returns_Cells k c a : returns (k c) a -> returns (Cells k) a.

(** The text [printf] writes for a newline. *)
Definition nl : string := String newline EmptyString.

(** [strcmp(a, b) == 0]. *)
Definition streq (a b : string) : bool := String.eqb a b.
Arguments streq : simpl never.

(** [size]. *)
Definition size (tokens : list string) : Z := Z.of_nat (List.length tokens).

(** [tokens[i]] for [i] below [size(tokens)]. *)
Definition token (tokens : list string) (i : nat) : string :=
  nth i tokens EmptyString.

(** [update_prev_tokens]: the loop copies [MAX_CHAR] bytes. *)
Fixpoint update_prev_tokens_loop (n i : nat) (tokens : string) : string :=
  match n with
  | O => EmptyString
  | S n' => String (char_at tokens i) (update_prev_tokens_loop n' (S i) tokens)
  end.

Definition update_prev_tokens (tokens prev_tokens : string) : string :=
  update_prev_tokens_loop MAX_CHAR 0 tokens.

(** [no_dir]: gives [prev_tokens] as the parent leaves it. *)
Definition no_dir (tokens : list string) (str prev_tokens : string)
  : proc string :=
  Fork
    (Execvp (hd_error tokens) tokens
       (Printf ("No such file or directory" ++ nl) (Exit 0)))
    (Wait (Ret (update_prev_tokens str prev_tokens))).

(** [new_command[strcspn(new_command, "\n")] = 0]. *)
Fixpoint chomp (new_command : string) : string :=
  match new_command with
  | EmptyString => EmptyString
  | String c rest =>
      if Ascii.eqb c NUL then new_command
      else if Ascii.eqb c newline then String NUL rest
      else String c (chomp rest)
  end.

(** [tokenize_elements]: the command buffer after the call and the tokens
    stored before the NULL. *)
Definition tokenize_elements (new_command : string)
  : proc (string * list string) :=
  let new_command := chomp new_command in
  match tokenize new_command with
  | Normal tokenized_vals => Ret (new_command, tokenized_vals)
  | Exited st => Exit st
  | OutOfFuel => NoFuel
  end.

(** [handle_help]. *)
Definition handle_help : proc unit :=
  Printf ("Minishell by Alina Chiu" ++ nl ++ "Built-In cCmmands" ++ nl
          ++ "---" ++ nl ++ nl)
  (Printf ("usage: cd [directory_name]" ++ nl
          ++ "Change the current working directory of the shell. If no directory is provided, changes to Home directory."
          ++ nl ++ nl)
  (Printf ("usage: source [filename]" ++ nl
          ++ "Takes a filename as an argument and processes each line of the file as a command, including built-ins. In other words, each line should be processed as if it was entered by the user at the prompt."
          ++ nl ++ nl)
  (Printf ("usage: prev" ++ nl
          ++ "Prints the previous command and executes it again. If there is no previous value, nothing is executed or printed"
          ++ nl ++ nl)
  (Printf ("usage: help" ++ nl
          ++ "Explains all built-in commands available in this minishell" ++ nl)
  (Ret tt))))).

(** [handle_cd]. *)
Definition handle_cd (tokens_size : Z) (tokens : list string) : proc unit :=
  if tokens_size =? 2 then
    Chdir (Dir (token tokens 1))
      (Printf ("-shell: cd: given directory does not exist" ++ nl) (Ret tt))
      (Ret tt)
  else if tokens_size =? 1 then
    Chdir Home Abort (Ret tt)
  else
    Printf ("-shell: cd: too many arguments." ++ nl
            ++ "cd: usage: cd [directory_name]" ++ nl) (Ret tt).

(** [has_special]. *)
Fixpoint has_special (tokens : list string) : Z :=
  match tokens with
  | [] => 0
  | t :: rest =>
      if streq ";" t then 1
      else if streq "<" t then 2
      else if streq ">" t then 3
      else if streq "|" t then 4
      else has_special rest
  end.

(** The first loop of [split]: the entries copied to [left_tokens] and the
    tokens from the match on.  [strcmp] on the terminating NULL when
    [special_token] does not occur is undefined: [None]. *)
Fixpoint split_left (special_token : string) (tokens : list string)
  : option (list string * list string) :=
  match tokens with
  | [] => None
  | t :: rest =>
      if negb (streq special_token t) then
        match split_left special_token rest with
        | Some (left_tokens, from_match) => Some (t :: left_tokens, from_match)
        | None => None
        end
      else Some ([], tokens)
  end.

(** [split]: the entries written to [left_tokens] and to [right_tokens].
    The second loop copies everything after the match ([i++] skips it).
    [split] stores no NULL after them and the two arrays are automatic
    ones of the caller: whoever reads such an array up to its first NULL
    reads the written entries and then the cells behind them ([as_read]). *)
Definition split (special_token : string) (tokens : list string)
  : option (list string * list string) :=
  match split_left special_token tokens with
  | Some (left_tokens, from_match) => Some (left_tokens, tl from_match)
  | None => None
  end.

(** An array as read up to its first NULL: the entries written to it and
    then the cells behind them. *)
Definition as_read (written : list string) (cells : option (list string))
  : option (list string) :=
  match cells with
  | Some stale => Some (written ++ stale)%list
  | None => None
  end.

(** A callee that scans its array with [strcmp]: a cell that points to no
    string makes it fault. *)
Definition on_array {A : Type} (callee : list string -> proc A)
    (array : option (list string)) : proc A :=
  match array with
  | Some tokens => callee tokens
  | None => Crash
  end.

(** [array[0]] handed to [open]: the first written entry, else the string
    the first cell points to; [None] for NULL and for no string. *)
Definition first_cell (written : list string) (cells : option (list string))
  : option string :=
  match written with
  | t :: _ => Some t
  | [] =>
      match cells with
      | Some (t :: _) => Some t
      | _ => None
      end
  end.

(** [execvp(array[0], array)].  With NULL in [array[0]] the call faults;
    with a cell behind the written entries that points to no string it
    fails. *)
Definition execvp_array {A : Type} (written : list string)
    (cells : option (list string)) (failed : proc A) : proc A :=
  match as_read written cells with
  | Some (file :: args) => Execvp (Some file) (file :: args) failed
  | Some [] => Crash
  | None =>
      match written with
      | _ :: _ => failed
      | [] => Crash
      end
  end.

(** [handle_input_redirection]. *)
Definition handle_input_redirection (tokens : list string) : proc unit :=
  match split "<" tokens with
  | None => Crash
  | Some (left_tokens, right_tokens) =>
      Cells (fun left_cells => Cells (fun right_cells =>
        Fork
          (Close (Fd 0)
             (Open (first_cell right_tokens right_cells) O_RDONLY
                (execvp_array left_tokens left_cells
                   (Printf ("Incorrect input." ++ nl) (Exit 0)))))
          (Wait (Ret tt))))
  end.

(** [handle_output_redirection]; mode 0644. *)
Definition handle_output_redirection (tokens : list string) : proc unit :=
  match split ">" tokens with
  | None => Crash
  | Some (left_tokens, right_tokens) =>
      Cells (fun left_cells => Cells (fun right_cells =>
        Fork
          (Close (Fd 1)
             (Open (first_cell right_tokens right_cells)
                (O_WRONLY_CREAT_TRUNC 420)
                (execvp_array left_tokens left_cells
                   (Printf ("Incorrect input." ++ nl) (Exit 0)))))
          (Wait (Ret tt))))
  end.

Section Orchestrator.

(** The callee of the mutually recursive handlers. *)
Variable execute_special : list string -> proc unit.

(** [handle_semicolon]. *)
Definition handle_semicolon (tokens : list string) : proc unit :=
  match split ";" tokens with
  | None => Crash
  | Some (left_tokens, right_tokens) =>
      Cells (fun left_cells => Cells (fun right_cells =>
        Fork
          (on_array execute_special (as_read left_tokens left_cells))
          (Wait
             (Fork
                (on_array execute_special (as_read right_tokens right_cells))
                (Wait (Ret tt))))))
  end.

(** [custom_pipe]. *)
Definition custom_pipe (tokens : list string) : proc unit :=
  match split "|" tokens with
  | None => Crash
  | Some (left_tokens, right_tokens) =>
      Cells (fun left_cells => Cells (fun right_cells =>
        Fork
          (Pipe
             (Fork
                (Close read_fd (Close (Fd 1) (Dup write_fd
                   (on_array execute_special
                      (as_read left_tokens left_cells)))))
                (Close write_fd (Close (Fd 0) (Dup read_fd
                   (on_array execute_special
                      (as_read right_tokens right_cells)
                    ;;; Wait (Ret tt)))))))
          (Wait (Ret tt))))
  end.

End Orchestrator.

(** [execute_special], with the depth of the recursion bounded by [n].
    With NULL in [tokens[0]] the [execvp] of the default case faults. *)
Fixpoint execute_special_n (n : nat) (tokens : list string) : proc unit :=
  match n with
  | O => NoFuel
  | S n' =>
      match has_special tokens with
      | 1 => handle_semicolon (execute_special_n n') tokens
      | 2 => handle_input_redirection tokens
      | 3 => handle_output_redirection tokens
      | 4 => custom_pipe (execute_special_n n') tokens
      | _ =>
          match tokens with
          | [] => Crash
          | file :: _ =>
              Execvp (Some file) tokens
                (Printf ("Invalid input." ++ nl) (Exit 0))
          end
      end
  end.

(** [execute_special] on the NULL-terminated array [tokens].  The calls
    on the two sides of an operator are on arrays that end where the cells
    behind the written entries hold a NULL, so that nothing in the code
    bounds their depth; the length plus one is deep enough when these
    cells hold no operator, and [NoFuel] stands for what lies deeper. *)
Definition execute_special (tokens : list string) : proc unit :=
  execute_special_n (S (List.length tokens)) tokens.

(** [num_pipes]. *)
Fixpoint num_pipes (tokens : list string) : Z :=
  match tokens with
  | [] => 0
  | t :: rest =>
      if streq t "|" then num_pipes rest + 1 else num_pipes rest
  end.

(** [handle_specials_exec]. *)
Definition handle_specials_exec (tokens : list string) : proc unit :=
  if has_special tokens =? 4 then
    if num_pipes tokens >? 1 then execute_special tokens
    else custom_pipe execute_special tokens
  else execute_special tokens.

Section Dispatcher.

(** The callee [execute] of [handle_source] and [handle_prev]. *)
Variable execute : list string -> string -> string -> proc (Z * string).

(** The [while] loop of [handle_source], at most [fuel] lines; [prev] is
    the local array the lines of the file are recorded in. *)
Fixpoint handle_source_loop (fuel : nat) (prev : string) : proc unit :=
  match fuel with
  | O => NoFuel
  | S fuel' =>
      Fgets (fun r =>
        match r with
        | None => Ret tt
        | Some line =>
            '(line, new_tokens) <- tokenize_elements line ;;
            match hd_error new_tokens with
            | None => Crash
            | Some t =>
                if streq t "exit" then Ret tt
                else
                  '(_, prev) <- execute new_tokens line prev ;;
                  handle_source_loop fuel' prev
            end
        end)
  end.

(** [handle_source]. *)
Definition handle_source (fuel : nat) (tokens : list string) : proc unit :=
  if size tokens =? 2 then
    Uninit (fun prev =>
      Fopen (token tokens 1) Crash
        (handle_source_loop fuel prev ;;; Fclose (Ret tt)))
  else
    Printf ("-shell: source: filename argument required" ++ nl
            ++ "source: usage: source filename" ++ nl) (Ret tt).

(** [handle_prev]: gives [prev_tokens] as the call leaves it.  The array
    is never NULL.  In [execute(old_tokens, prev_tokens, prev_tokens)] the
    command and the slot are one buffer. *)
Definition handle_prev (tokens : list string) (prev_tokens : string)
  : proc string :=
  if (size tokens =? 1) && true then
    Printf (cstr prev_tokens ++ nl)
      ('(prev_tokens, old_tokens) <- tokenize_elements prev_tokens ;;
       if Nat.eqb (strlen prev_tokens) 0 then
         '(_, prev_tokens) <- execute old_tokens prev_tokens prev_tokens ;;
         Ret prev_tokens
       else Ret prev_tokens)
  else
    Printf ("-shell: prev: prev requires one argument" ++ nl
            ++ "usage: prev: prev" ++ nl) (Ret prev_tokens).

End Dispatcher.

(** [execute]: the return value and [prev_tokens] after the call.  [fuel]
    bounds how deep [source] and [prev] nest and how many lines of a file
    are read. *)
Fixpoint execute (fuel : nat) (tokens : list string)
    (commands prev_tokens : string) : proc (Z * string) :=
  let nested :=
    match fuel with
    | O => fun _ _ _ => NoFuel
    | S fuel' => execute fuel'
    end in
  if negb (size tokens =? 0) then
    if streq (token tokens 0) "exit" then
      Ret (1, prev_tokens)
    else if has_special tokens >? 0 then
      let prev_tokens := update_prev_tokens commands prev_tokens in
      handle_specials_exec tokens ;;; Ret (0, prev_tokens)
    else if streq (token tokens 0) "cd" then
      let prev_tokens := update_prev_tokens commands prev_tokens in
      handle_cd (size tokens) tokens ;;; Ret (0, prev_tokens)
    else if streq (token tokens 0) "source" then
      let prev_tokens := update_prev_tokens commands prev_tokens in
      handle_source nested fuel tokens ;;; Ret (0, prev_tokens)
    else if streq (token tokens 0) "prev" then
      prev_tokens <- handle_prev nested tokens prev_tokens ;;
      Ret (0, prev_tokens)
    else if streq (token tokens 0) "help" then
      let prev_tokens := update_prev_tokens commands prev_tokens in
      handle_help ;;; Ret (0, prev_tokens)
    else
      let prev_tokens := update_prev_tokens commands prev_tokens in
      prev_tokens <- no_dir tokens commands prev_tokens ;;
      Ret (0, prev_tokens)
  else Ret (0, prev_tokens).

(** The [while (1)] loop of [main], at most [fuel] lines.  The loop is
    left by [break] when [fgets] gives NULL and when [execute] returns 1. *)
Fixpoint main_loop (fuel : nat) (prev_tokens : string) : proc unit :=
  match fuel with
  | O => NoFuel
  | S fuel' =>
      Printf "shell $ "
        (Fgets (fun r =>
           match r with
           | None => Printf nl (Ret tt)
           | Some commands =>
               '(commands, tokens) <- tokenize_elements commands ;;
               '(code, prev_tokens) <-
                  execute fuel' tokens commands prev_tokens ;;
               if code =? 1 then Ret tt else main_loop fuel' prev_tokens
           end))
  end.

(** [main] of shell.c; [prev_tokens] is not initialised. *)
Definition main (fuel : nat) : proc Z :=
  Printf ("Welcome to mini-shell." ++ nl)
    (Uninit (fun prev_tokens =>
       main_loop fuel prev_tokens ;;; Printf ("Bye bye." ++ nl) (Ret 0))).

End Shell.

(** ** tokenize.c *)

Module Tokenize.
Import Tokens Shell.

(** The [for] loop of [main]: one [printf("%s\n", ...)] per token. *)
Fixpoint print_tokens (tokenized_vals : vect_t) (k : proc Z) : proc Z :=
  match tokenized_vals with
  | [] => k
  | t :: rest => Printf (t ++ nl) (print_tokens rest k)
  end.

(** [main] of tokenize.c.  The result of [fgets] is not looked at: when it
    reads nothing, [commands] is the array as it was. *)
Definition main : proc Z :=
  Uninit (fun commands =>
    Fgets (fun r =>
      let commands := match r with Some b => b | None => commands end in
      let commands := chomp commands in
      match tokenize commands with
      | Normal tokenized_vals => print_tokens tokenized_vals (Ret 0%Z)
      | Exited st => Exit st
      | OutOfFuel => NoFuel
      end)).

End Tokenize.

(** ** Notions the properties are stated with *)

Import Tokens Shell.

Definition starts_with (c : ascii) (s : string) : bool :=
  match s with
  | String d _ => Ascii.eqb d c
  | EmptyString => false
  end.

Fixpoint ends_with (c : ascii) (s : string) : bool :=
  match s with
  | EmptyString => false
  | String d rest =>
      match rest with
      | EmptyString => Ascii.eqb d c
      | String _ _ => ends_with c rest
      end
  end.

(** No space and no backslash followed by [t]: the two separators of
    [tokenize]. *)
Fixpoint no_separator (s : string) : bool :=
  match s with
  | EmptyString => true
  | String c rest =>
      negb (Ascii.eqb c space)
      && negb (Ascii.eqb c backslash && starts_with "t" rest)
      && no_separator rest
  end.


(** The tokens [has_special] stops at. *)
Definition is_special (t : string) : bool :=
  streq ";" t || streq "<" t || streq ">" t || streq "|" t.

(** The value [has_special] returns when it stops at [t]. *)
Definition special_code (t : string) : Z :=
  if streq ";" t then 1%Z
  else if streq "<" t then 2%Z
  else if streq ">" t then 3%Z
  else if streq "|" t then 4%Z
  else 0%Z.

(** The literal each case of [execute_special] hands to [split]. *)
Definition literal (code : Z) : string :=
  match code with
  | 1%Z => ";"
  | 2%Z => "<"
  | 3%Z => ">"
  | 4%Z => "|"
  | _ => EmptyString
  end.

(** What [execute_special] does with tokens that hold no operator. *)
Definition leaf (tokens : list string) : proc unit :=
  match tokens with
  | [] => Crash
  | file :: _ =>
      Execvp (Some file) tokens (Printf ("Invalid input." ++ nl) (Exit 0%Z))
  end.

(** What the cases of [execute_special] do with the two sides of the
    operator, [callee] being the recursive call. *)
Definition resolved (callee : list string -> proc unit) (code : Z)
    (left_tokens right_tokens : list string) : proc unit :=
  match code with
  | 1%Z =>
      Cells (fun left_cells => Cells (fun right_cells =>
        Fork (on_array callee (as_read left_tokens left_cells))
          (Wait
             (Fork (on_array callee (as_read right_tokens right_cells))
                (Wait (Ret tt))))))
  | 2%Z =>
      Cells (fun left_cells => Cells (fun right_cells =>
        Fork
          (Close (Fd 0%Z)
             (Open (first_cell right_tokens right_cells) O_RDONLY
                (execvp_array left_tokens left_cells
                   (Printf ("Incorrect input." ++ nl) (Exit 0%Z)))))
          (Wait (Ret tt))))
  | 3%Z =>
      Cells (fun left_cells => Cells (fun right_cells =>
        Fork
          (Close (Fd 1%Z)
             (Open (first_cell right_tokens right_cells)
                (O_WRONLY_CREAT_TRUNC 420%Z)
                (execvp_array left_tokens left_cells
                   (Printf ("Incorrect input." ++ nl) (Exit 0%Z)))))
          (Wait (Ret tt))))
  | 4%Z =>
      Cells (fun left_cells => Cells (fun right_cells =>
        Fork
          (Pipe
             (Fork
                (Close read_fd (Close (Fd 1%Z) (Dup write_fd
                   (on_array callee (as_read left_tokens left_cells)))))
                (Close write_fd (Close (Fd 0%Z) (Dup read_fd
                   (on_array callee (as_read right_tokens right_cells)
                    ;;; Wait (Ret tt)))))))
          (Wait (Ret tt))))
  | _ => leaf left_tokens
  end.

(** [t'] is what [t] does when the cells behind the written entries of
    every array hold NULL, as on a stack that was never written. *)
Inductive null_cells {A : Type} : proc A -> proc A -> Prop :=
| null_Ret a : null_cells (Ret a) (Ret a)
| null_Fork c c' p p' :
    null_cells c c' -> null_cells p p' -> null_cells (Fork c p) (Fork c' p')
| null_Wait k k' : null_cells k k' -> null_cells (Wait k) (Wait k')
| null_Execvp file argv failed failed' :
    null_cells failed failed' ->
    null_cells (Execvp file argv failed) (Execvp file argv failed')
| null_Printf s k k' : null_cells k k' -> null_cells (Printf s k) (Printf s k')
| null_Exit st : null_cells (Exit st) (Exit st)
| null_Abort : null_cells Abort Abort
| null_Close d k k' : null_cells k k' -> null_cells (Close d k) (Close d k')
| null_Open path fl k k' :
    null_cells k k' -> null_cells (Open path fl k) (Open path fl k')
| null_Pipe k k' : null_cells k k' -> null_cells (Pipe k) (Pipe k')
| null_Dup d k k' : null_cells k k' -> null_cells (Dup d k) (Dup d k')
| null_Chdir path failed failed' ok ok' :
    null_cells failed failed' -> null_cells ok ok' ->
    null_cells (Chdir path failed ok) (Chdir path failed' ok')
| null_Fopen path failed failed' ok ok' :
    null_cells failed failed' -> null_cells ok ok' ->
    null_cells (Fopen path failed ok) (Fopen path failed' ok')
| null_Fgets k k' :
    (forall r, null_cells (k r) (k' r)) -> null_cells (Fgets k) (Fgets k')
| null_Fclose k k' : null_cells k k' -> null_cells (Fclose k) (Fclose k')
| null_Uninit k k' :
    (forall b, null_cells (k b) (k' b)) -> null_cells (Uninit k) (Uninit k')
| null_Crash : null_cells Crash Crash
| null_NoFuel : null_cells NoFuel NoFuel
| null_Cells k t' : null_cells (k (Some [])) t' -> null_cells (Cells k) t'.

(** Every byte of [s] passes [p]. *)
Fixpoint all_chars (p : ascii -> bool) (s : string) : bool :=
  match s with
  | EmptyString => true
  | String c rest => p c && all_chars p rest
  end.

(** A byte [tokenize] appends to the token it is building, wherever it
    stands: no NUL, space, double quote or operator character. *)
Definition plain_char (c : ascii) : bool :=
  negb (Ascii.eqb c NUL) && negb (Ascii.eqb c space)
  && negb (Ascii.eqb c dquote) && Z.eqb (special_char c) 0.

(** A word made of such bytes that holds no backslash followed by [t]. *)
Definition plain_word (w : string) : bool :=
  negb (String.eqb w EmptyString) && all_chars plain_char w && no_separator w.

(** The token of one operator character. *)
Definition operator_token (t : string) : bool :=
  match t with
  | String c EmptyString => Z.eqb (special_char c) 1
  | _ => false
  end.

(** No operator character in [t]. *)
Definition operator_free (t : string) : bool :=
  all_chars (fun c => Z.eqb (special_char c) 0) t.

(** From index [i] on, the buffer holds [s] and then NUL bytes. *)
Definition holds (buf : string) (i : nat) (s : string) : Prop :=
  forall j : nat, char_at buf (i + j) = char_at s j.

(** The commands between the pipes of [tokens]. *)
Fixpoint stages (tokens : list string) : list (list string) :=
  match tokens with
  | [] => [[]]
  | t :: rest =>
      if streq "|" t then [] :: stages rest
      else
        match stages rest with
        | s :: ss => (t :: s) :: ss
        | [] => [[t]]
        end
  end.

(** The processes of a chain of commands, the output of each piped into
    the next. *)
Fixpoint pipeline (cmds : list (list string)) : proc unit :=
  match cmds with
  | [] => Ret tt
  | cmd :: rest =>
      match rest with
      | [] => leaf cmd
      | _ :: _ =>
          Fork
            (Pipe
               (Fork
                  (Close read_fd (Close (Fd 1%Z) (Dup write_fd (leaf cmd))))
                  (Close write_fd (Close (Fd 0%Z) (Dup read_fd
                     (pipeline rest ;;; Wait (Ret tt)))))))
            (Wait (Ret tt))
      end
  end.

(** * Properties *)

(** ** Buffers *)

Lemma char_at_String (c : ascii) (rest : string) (j : nat) :
  char_at (String c rest) (S j) = char_at rest j.
Proof. reflexivity. Qed.

Lemma char_at_not_NUL (buf : string) : forall j,
  char_at buf j <> NUL -> (j < String.length buf)%nat.
Proof.
  induction buf as [|c rest IH]; intros j H.
  - destruct j; exfalso; apply H; reflexivity.
  - destruct j as [|j]; simpl; [lia|].
    rewrite char_at_String in H. apply IH in H. lia.
Qed.

(** A byte reached before any NUL belongs to the C string. *)
Lemma cstr_char_at (c : ascii) (buf : string) : forall j,
  contains c (cstr buf) = false ->
  (forall k, (k <= j)%nat -> char_at buf k <> NUL) ->
  char_at buf j <> c.
Proof.
  induction buf as [|d rest IH]; intros j Hc Hn.
  - exfalso. apply (Hn 0%nat); [lia|]. reflexivity.
  - simpl in Hc. destruct (Ascii.eqb d NUL) eqn:Ed.
    + exfalso. apply (Hn 0%nat); [lia|]. apply Ascii.eqb_eq in Ed. exact Ed.
    + simpl in Hc. apply orb_false_iff in Hc. destruct Hc as [Hd Hr].
      destruct j as [|j].
      * unfold char_at; simpl. apply Ascii.eqb_neq. exact Hd.
      * rewrite char_at_String. apply IH; [exact Hr|].
        intros k Hk. rewrite <- char_at_String with (c := d).
        apply Hn. lia.
Qed.

(** ** The tokenizer returns *)

Lemma handle_quotes_loop_Normal : forall fuel curr_string result i,
  (String.length curr_string <= fuel + (i + 1))%nat ->
  exists result' i',
    handle_quotes_loop fuel curr_string result i = Normal (result', i')
    /\ (i <= i')%nat.
Proof.
  induction fuel as [|fuel IH]; intros buf res i Hlen; simpl.
  - destruct (Ascii.eqb (char_at buf (i + 1)) NUL) eqn:E; simpl.
    + exists res, i. split; [reflexivity|lia].
    + apply Ascii.eqb_neq in E. apply char_at_not_NUL in E. lia.
  - destruct (Ascii.eqb (char_at buf (i + 1)) NUL) eqn:E; simpl.
    + exists res, i. split; [reflexivity|lia].
    + destruct (Ascii.eqb (char_at buf (i + 1)) dquote) eqn:Eq; simpl.
      * exists res, i. split; [reflexivity|lia].
      * destruct (IH buf (strncat1 res (char_at buf (i + 1))) (i + 1)%nat)
          as (r' & i' & H & Hi); [lia|].
        exists r', i'. split; [exact H|lia].
Qed.

Lemma handle_quotes_Normal (vect : vect_t) (curr_string result : string) (i : nat) :
  exists result' i',
    handle_quotes vect curr_string result i = Normal (result', i')
    /\ (i + 2 <= i')%nat.
Proof.
  unfold handle_quotes.
  destruct (handle_quotes_loop_Normal (String.length curr_string)
              curr_string result i) as (r' & i' & H & Hi); [lia|].
  rewrite H. exists r', (i' + 2)%nat. split; [reflexivity|lia].
Qed.

Lemma tokenize_loop_Normal : forall fuel curr_string vector result i,
  (MAX_CHAR <= fuel + i)%nat ->
  exists vector' result',
    tokenize_loop fuel curr_string vector result i = Normal (vector', result').
Proof.
  induction fuel as [|fuel IH]; intros buf vec res i Hfuel;
    cbn [tokenize_loop].
  - destruct (Nat.ltb_spec i MAX_CHAR) as [Hlt|Hge]; [lia|].
    simpl. eauto.
  - destruct ((i <? MAX_CHAR)%nat && negb (Ascii.eqb (char_at buf i) NUL));
      [|eauto].
    destruct (Ascii.eqb (char_at buf i) space).
    { destruct (add_and_reset vec res). apply IH. lia. }
    destruct (Ascii.eqb (char_at buf i) backslash && (i + 1 <? MAX_CHAR)%nat
              && negb (Ascii.eqb (char_at buf (i + 1)) NUL)
              && Ascii.eqb (char_at buf (i + 1)) "t").
    { destruct (add_and_reset vec res). apply IH. lia. }
    destruct (Ascii.eqb (char_at buf i) dquote).
    { destruct (add_and_reset vec res) as [vec' res'].
      destruct (handle_quotes_Normal vec' buf res' i) as (r' & i' & H & Hi).
      rewrite H. apply IH. lia. }
    destruct (Z.eqb (special_char (char_at buf i)) 1).
    { destruct (add_and_reset vec res) as [vec' res'].
      destruct (add_and_reset vec' (strncat1 res' (char_at buf i))).
      apply IH. lia. }
    apply IH. lia.
Qed.

(** [tokenize] gives a token sequence for every buffer: no path through it
    reaches [exit(1)], and 256 iterations end the loop. *)
Lemma tokenize_Normal (curr_string : string) :
  exists vector, tokenize curr_string = Normal vector.
Proof.
  unfold tokenize.
  destruct (tokenize_loop_Normal MAX_CHAR curr_string vect_new EmptyString 0)
    as (v & r & H); [lia|].
  rewrite H. eauto.
Qed.

(** ** What the tokens are made of *)

Lemma ends_with_strncat1 (c d : ascii) : forall s,
  ends_with c (strncat1 s d) = Ascii.eqb d c.
Proof.
  unfold strncat1. induction s as [|a rest IH]; [reflexivity|].
  simpl. destruct rest; simpl in *; [reflexivity|exact IH].
Qed.

Lemma no_separator_strncat1 (c : ascii) : forall s,
  no_separator s = true ->
  c <> space ->
  (ends_with backslash s = true -> c <> "t"%char) ->
  no_separator (strncat1 s c) = true.
Proof.
  unfold strncat1. induction s as [|a rest IH]; intros Hs Hc Ht.
  - simpl. apply Ascii.eqb_neq in Hc. rewrite Hc.
    rewrite andb_false_r. reflexivity.
  - simpl in Hs. apply andb_true_iff in Hs. destruct Hs as [Hs Hrest].
    apply andb_true_iff in Hs. destruct Hs as [Ha Hat].
    simpl. rewrite Ha. simpl.
    rewrite IH; [|exact Hrest|exact Hc|].
    + rewrite andb_true_r. destruct rest as [|d r]; simpl in *.
      * destruct (Ascii.eqb a backslash) eqn:Ea; [|reflexivity].
        simpl. apply negb_true_iff. apply Ascii.eqb_neq.
        apply Ht. reflexivity.
      * exact Hat.
    + intros He. apply Ht. simpl. destruct rest; [discriminate|exact He].
Qed.

Lemma add_and_reset_cases (vector : vect_t) (ch : string) :
  (ch <> EmptyString /\ add_and_reset vector ch = (vect_add vector ch, EmptyString))
  \/ (ch = EmptyString /\ add_and_reset vector ch = (vector, EmptyString)).
Proof.
  unfold add_and_reset. destruct ch as [|c rest]; simpl.
  - right. split; reflexivity.
  - left. split; [discriminate|reflexivity].
Qed.

Lemma add_and_reset_Forall (P : string -> Prop) (vector : vect_t) (ch : string) :
  Forall P vector -> (ch <> EmptyString -> P ch) ->
  Forall P (fst (add_and_reset vector ch))
  /\ snd (add_and_reset vector ch) = EmptyString.
Proof.
  intros Hv Hc.
  destruct (add_and_reset_cases vector ch) as [[Hne ->]|[_ ->]]; simpl.
  - split; [|reflexivity]. unfold vect_add. apply Forall_app. split; [exact Hv|].
    constructor; [auto|constructor].
  - split; [exact Hv|reflexivity].
Qed.

(** One step of the invariant proofs: name the result of [add_and_reset]. *)
Ltac flush P vec res vec' Hvec' :=
  let H := fresh "H" in
  let Hres := fresh "Hres" in
  let rnew := fresh "rnew" in
  assert (H : Forall P (fst (add_and_reset vec res))
              /\ snd (add_and_reset vec res) = EmptyString)
    by (apply add_and_reset_Forall; auto);
  destruct (add_and_reset vec res) as [vec' rnew];
  simpl in H; destruct H as [Hvec' Hres]; subst rnew.

Lemma tokenize_loop_nonempty : forall fuel curr_string vector result i v r,
  Forall (fun t => t <> EmptyString) vector ->
  tokenize_loop fuel curr_string vector result i = Normal (v, r) ->
  Forall (fun t => t <> EmptyString) v.
Proof.
  induction fuel as [|fuel IH]; intros buf vec res i v r Hvec;
    cbn [tokenize_loop].
  - destruct ((i <? MAX_CHAR)%nat && negb (Ascii.eqb (char_at buf i) NUL));
      intros H; inversion H; subst; exact Hvec.
  - destruct ((i <? MAX_CHAR)%nat && negb (Ascii.eqb (char_at buf i) NUL));
      [|intros H; inversion H; subst; exact Hvec].
    destruct (Ascii.eqb (char_at buf i) space).
    { flush (fun t : string => t <> EmptyString) vec res vec' Hvec'.
      apply IH. exact Hvec'. }
    destruct (Ascii.eqb (char_at buf i) backslash && (i + 1 <? MAX_CHAR)%nat
              && negb (Ascii.eqb (char_at buf (i + 1)) NUL)
              && Ascii.eqb (char_at buf (i + 1)) "t").
    { flush (fun t : string => t <> EmptyString) vec res vec' Hvec'.
      apply IH. exact Hvec'. }
    destruct (Ascii.eqb (char_at buf i) dquote).
    { flush (fun t : string => t <> EmptyString) vec res vec' Hvec'.
      destruct (handle_quotes vec' buf EmptyString i) as [[r' i']| |];
        [|discriminate|discriminate].
      apply IH. exact Hvec'. }
    destruct (Z.eqb (special_char (char_at buf i)) 1).
    { flush (fun t : string => t <> EmptyString) vec res vec' Hvec'.
      flush (fun t : string => t <> EmptyString) vec'
        (strncat1 EmptyString (char_at buf i)) vec'' Hvec''.
      apply IH. exact Hvec''. }
    apply IH. exact Hvec.
Qed.

Lemma tokenize_loop_no_separator : forall fuel curr_string vector result i v r,
  (forall j, (forall k, (k <= j)%nat -> char_at curr_string k <> NUL) ->
             char_at curr_string j <> dquote) ->
  (forall k, (k < i)%nat -> char_at curr_string k <> NUL) ->
  Forall (fun t => no_separator t = true) vector ->
  no_separator result = true ->
  (ends_with backslash result = true -> (i < MAX_CHAR)%nat ->
   char_at curr_string i <> "t"%char) ->
  tokenize_loop fuel curr_string vector result i = Normal (v, r) ->
  Forall (fun t => no_separator t = true) v /\ no_separator r = true.
Proof.
  induction fuel as [|fuel IH]; intros buf vec res i v r Hq Hpre Hvec Hres Hbs;
    cbn [tokenize_loop].
  - destruct ((i <? MAX_CHAR)%nat && negb (Ascii.eqb (char_at buf i) NUL));
      intros H; inversion H; subst; auto.
  - destruct ((i <? MAX_CHAR)%nat && negb (Ascii.eqb (char_at buf i) NUL))
      eqn:Econd; [|intros H; inversion H; subst; auto].
    apply andb_true_iff in Econd. destruct Econd as [Hlt Hnul].
    apply Nat.ltb_lt in Hlt. apply negb_true_iff in Hnul.
    apply Ascii.eqb_neq in Hnul.
    assert (Hpre' : forall k, (k <= i)%nat -> char_at buf k <> NUL).
    { intros k Hk. destruct (Nat.eq_dec k i) as [->|Hne]; [exact Hnul|].
      apply Hpre. lia. }
    assert (Hnext : forall k, (k < i + 1)%nat -> char_at buf k <> NUL).
    { intros k Hk. apply Hpre'. lia. }
    destruct (Ascii.eqb (char_at buf i) space) eqn:Esp.
    { flush (fun t : string => no_separator t = true) vec res vec' Hvec'.
      apply IH; auto. discriminate. }
    destruct (Ascii.eqb (char_at buf i) backslash && (i + 1 <? MAX_CHAR)%nat
              && negb (Ascii.eqb (char_at buf (i + 1)) NUL)
              && Ascii.eqb (char_at buf (i + 1)) "t") eqn:Etab.
    { flush (fun t : string => no_separator t = true) vec res vec' Hvec'.
      apply IH; auto; [|discriminate].
      apply andb_true_iff in Etab. destruct Etab as [Etab _].
      apply andb_true_iff in Etab. destruct Etab as [_ En].
      apply negb_true_iff in En. apply Ascii.eqb_neq in En.
      intros k Hk. destruct (Nat.eq_dec k (i + 1)) as [->|Hne]; [exact En|].
      apply Hpre'. lia. }
    destruct (Ascii.eqb (char_at buf i) dquote) eqn:Edq.
    { apply Ascii.eqb_eq in Edq. exfalso. exact (Hq i Hpre' Edq). }
    apply Ascii.eqb_neq in Esp.
    destruct (Z.eqb (special_char (char_at buf i)) 1) eqn:Especial.
    { flush (fun t : string => no_separator t = true) vec res vec' Hvec'.
      assert (Hone : no_separator (strncat1 EmptyString (char_at buf i)) = true).
      { apply no_separator_strncat1; [reflexivity|exact Esp|discriminate]. }
      flush (fun t : string => no_separator t = true) vec'
        (strncat1 EmptyString (char_at buf i)) vec'' Hvec''.
      apply IH; auto. discriminate. }
    apply IH; auto.
    + apply no_separator_strncat1; auto.
    + rewrite ends_with_strncat1. intros Eb Hlt'.
      rewrite Eb in Etab. simpl in Etab.
      apply Nat.ltb_lt in Hlt'. rewrite Hlt' in Etab. simpl in Etab.
      intros Ht. rewrite Ht in Etab. discriminate.
Qed.

(** ** The operator scanner and the splitter *)

Open Scope Z_scope.

Lemma is_special_code (t : string) :
  is_special t = true ->
  special_code t <> 0 /\ literal (special_code t) = t.
Proof.
  unfold is_special, special_code, streq. intros H.
  destruct (String.eqb ";" t) eqn:E1;
    [apply String.eqb_eq in E1; subst t; split; [discriminate|reflexivity]|].
  destruct (String.eqb "<" t) eqn:E2;
    [apply String.eqb_eq in E2; subst t; split; [discriminate|reflexivity]|].
  destruct (String.eqb ">" t) eqn:E3;
    [apply String.eqb_eq in E3; subst t; split; [discriminate|reflexivity]|].
  destruct (String.eqb "|" t) eqn:E4;
    [apply String.eqb_eq in E4; subst t; split; [discriminate|reflexivity]|].
  discriminate.
Qed.

Lemma not_special_code (t : string) :
  is_special t = false -> special_code t = 0.
Proof.
  unfold is_special, special_code. intros H.
  destruct (streq ";" t); [discriminate|].
  destruct (streq "<" t); [discriminate|].
  destruct (streq ">" t); [discriminate|].
  destruct (streq "|" t); [discriminate|reflexivity].
Qed.

Lemma has_special_cons (t : string) (rest : list string) :
  has_special (t :: rest) =
  if is_special t then special_code t else has_special rest.
Proof.
  unfold is_special, special_code. cbn [has_special].
  destruct (streq ";" t); [reflexivity|].
  destruct (streq "<" t); [reflexivity|].
  destruct (streq ">" t); [reflexivity|].
  destruct (streq "|" t); reflexivity.
Qed.

(** [has_special] skips tokens that are no operator and stops at the
    first that is one. *)
Lemma has_special_app (pre : list string) (op : string) (post : list string) :
  Forall (fun t => is_special t = false) pre ->
  is_special op = true ->
  has_special (pre ++ op :: post) = special_code op.
Proof.
  intros Hpre Hop. induction Hpre as [|t pre Ht _ IH].
  - simpl app. rewrite has_special_cons, Hop. reflexivity.
  - simpl app. rewrite has_special_cons, Ht. exact IH.
Qed.

Lemma has_special_none (tokens : list string) :
  Forall (fun t => is_special t = false) tokens -> has_special tokens = 0.
Proof.
  intros H. induction H as [|t rest Ht _ IH]; [reflexivity|].
  rewrite has_special_cons, Ht. exact IH.
Qed.

(** The tokens around the first operator. *)
Lemma first_special (tokens : list string) :
  has_special tokens <> 0 ->
  exists pre op post,
    tokens = (pre ++ op :: post)%list
    /\ Forall (fun t => is_special t = false) pre
    /\ is_special op = true.
Proof.
  induction tokens as [|t rest IH]; intros H; [exfalso; apply H; reflexivity|].
  rewrite has_special_cons in H.
  destruct (is_special t) eqn:Et.
  - exists [], t, rest. repeat split; auto.
  - destruct (IH H) as (pre & op & post & -> & Hpre & Hop).
    exists (t :: pre), op, post. repeat split; auto.
Qed.

Lemma has_special_In (tokens : list string) (t : string) :
  In t tokens -> is_special t = true -> has_special tokens <> 0.
Proof.
  induction tokens as [|u rest IH]; intros Hin Ht; [contradiction|].
  rewrite has_special_cons. destruct (is_special u) eqn:Eu.
  - apply is_special_code. exact Eu.
  - destruct Hin as [->|Hin]; [congruence|]. apply IH; assumption.
Qed.

Lemma has_special_range (tokens : list string) :
  has_special tokens = 0 \/ has_special tokens = 1 \/ has_special tokens = 2
  \/ has_special tokens = 3 \/ has_special tokens = 4.
Proof.
  induction tokens as [|t rest IH]; [left; reflexivity|].
  cbn [has_special]. destruct (streq ";" t); [tauto|].
  destruct (streq "<" t); [tauto|].
  destruct (streq ">" t); [tauto|].
  destruct (streq "|" t); [tauto|exact IH].
Qed.

Lemma not_special_not_In (pre : list string) (op : string) :
  Forall (fun t => is_special t = false) pre ->
  is_special op = true -> ~ In op pre.
Proof.
  intros Hpre Hop Hin. rewrite Forall_forall in Hpre.
  apply Hpre in Hin. congruence.
Qed.

(** [split] cuts at the first token equal to [special_token]. *)
Lemma split_first (special_token : string) (post : list string) : forall pre,
  ~ In special_token pre ->
  split special_token (pre ++ special_token :: post) = Some (pre, post).
Proof.
  unfold split. induction pre as [|t pre IH]; intros Hnin; simpl.
  - unfold streq. rewrite String.eqb_refl. reflexivity.
  - unfold streq in *. destruct (String.eqb_spec special_token t) as [->|Hne].
    + exfalso. apply Hnin. left. reflexivity.
    + simpl. assert (Hnin' : ~ In special_token pre)
        by (intros Hin; apply Hnin; right; exact Hin).
      specialize (IH Hnin').
      destruct (split_left special_token (pre ++ special_token :: post))
        as [[l fm]|]; [|discriminate].
      inversion IH; subst. reflexivity.
Qed.

Lemma split_Some (special_token : string) : forall tokens left_tokens right_tokens,
  split special_token tokens = Some (left_tokens, right_tokens) ->
  tokens = (left_tokens ++ special_token :: right_tokens)%list
  /\ ~ In special_token left_tokens.
Proof.
  unfold split. induction tokens as [|t rest IH]; intros l r H; simpl in H;
    [discriminate|].
  unfold streq in *. destruct (String.eqb_spec special_token t) as [->|Hne];
    simpl in H.
  - inversion H; subst. split; [reflexivity|intros []].
  - destruct (split_left special_token rest) as [[l' fm]|]; [|discriminate].
    inversion H; subst.
    destruct (IH l' (tl fm) eq_refl) as [-> Hnin].
    split; [reflexivity|]. intros [E|Hin]; [congruence|contradiction].
Qed.

(** ** [execute_special] around the first operator *)

(** One call of [execute_special] on the tokens around their first
    operator. *)
Lemma execute_special_n_resolved (n : nat) (pre : list string) (op : string)
    (post : list string) :
  Forall (fun t => is_special t = false) pre ->
  is_special op = true ->
  split op (pre ++ op :: post) = Some (pre, post)
  /\ execute_special_n (S n) (pre ++ op :: post)
     = resolved (execute_special_n n) (special_code op) pre post.
Proof.
  intros Hpre Hop.
  assert (Hsplit : split op (pre ++ op :: post) = Some (pre, post))
    by (apply split_first, not_special_not_In; assumption).
  split; [exact Hsplit|].
  cbn [execute_special_n].
  rewrite (has_special_app pre op post Hpre Hop).
  destruct (is_special_code op Hop) as [_ Hlit].
  unfold is_special, special_code, streq in *.
  destruct (String.eqb_spec ";" op) as [<-|_].
  { unfold handle_semicolon. rewrite Hsplit. reflexivity. }
  destruct (String.eqb_spec "<" op) as [<-|_].
  { unfold handle_input_redirection. rewrite Hsplit. reflexivity. }
  destruct (String.eqb_spec ">" op) as [<-|_].
  { unfold handle_output_redirection. rewrite Hsplit. reflexivity. }
  destruct (String.eqb_spec "|" op) as [<-|_].
  { unfold custom_pipe. rewrite Hsplit. reflexivity. }
  discriminate.
Qed.

(** Without an operator [execute_special] hands the tokens to [execvp]. *)
Lemma execute_special_n_leaf (n : nat) (tokens : list string) :
  Forall (fun t => is_special t = false) tokens ->
  execute_special_n (S n) tokens = leaf tokens.
Proof.
  intros H. cbn [execute_special_n].
  rewrite (has_special_none tokens H). reflexivity.
Qed.

Lemma execute_special_leaf (tokens : list string) :
  Forall (fun t => is_special t = false) tokens ->
  execute_special tokens = leaf tokens.
Proof. apply execute_special_n_leaf. Qed.

(** ** Coming back from a call *)

Lemma returns_bind {A B : Type} (f : A -> proc B) (b : B) :
  forall (m : proc A) (a : A),
  returns m a -> returns (f a) b -> returns (bind m f) b.
Proof.
  intros m a H Hf. induction H; simpl; try (econstructor; eauto; fail).
  exact Hf.
Qed.

Lemma returns_bind_inv {A B : Type} (f : A -> proc B) (b : B) :
  forall m : proc A,
  returns (bind m f) b -> exists a, returns m a /\ returns (f a) b.
Proof.
  induction m; simpl; intros Hr;
    try (exists a; split; [constructor|exact Hr]; fail);
    inversion Hr; subst;
    match goal with
    | IH : forall r, returns (bind (?k r) f) b -> _,
      H : returns (bind (?k _) f) b |- _ => apply IH in H
    | IH : returns (bind ?k f) b -> _, H : returns (bind ?k f) b |- _ =>
        apply IH in H
    end;
    match goal with
    | H : exists a, _ |- _ =>
        destruct H as (a0 & Ha & Hb); exists a0; split; [|exact Hb]
    end;
    first [ apply returns_Chdir_failed; exact Ha
          | apply returns_Chdir_ok; exact Ha
          | apply returns_Fopen_failed; exact Ha
          | apply returns_Fopen_ok; exact Ha
          | econstructor; exact Ha ].
Qed.

(** ** The previous-command slot *)

Lemma update_prev_tokens_loop_shift (c : ascii) (rest : string) : forall n i,
  update_prev_tokens_loop n (S i) (String c rest)
  = update_prev_tokens_loop n i rest.
Proof.
  induction n as [|n IH]; intros i; [reflexivity|].
  cbn [update_prev_tokens_loop]. rewrite char_at_String, IH. reflexivity.
Qed.

Lemma update_prev_tokens_loop_cstr : forall n tokens,
  (strlen tokens < n)%nat ->
  cstr (update_prev_tokens_loop n 0 tokens) = cstr tokens.
Proof.
  unfold strlen.
  induction n as [|n IH]; intros tokens Hlen; [lia|].
  cbn [update_prev_tokens_loop]. destruct tokens as [|c rest].
  - reflexivity.
  - rewrite update_prev_tokens_loop_shift. unfold char_at. simpl.
    simpl in Hlen. destruct (Ascii.eqb c NUL); [reflexivity|].
    simpl in Hlen. rewrite IH; [reflexivity|lia].
Qed.

(** The slot holds the command line that was copied into it. *)
Lemma update_prev_tokens_cstr (tokens prev_tokens : string) :
  (strlen tokens < MAX_CHAR)%nat ->
  cstr (update_prev_tokens tokens prev_tokens) = cstr tokens.
Proof. apply update_prev_tokens_loop_cstr. Qed.

Lemma chomp_no_newline : forall new_command,
  contains newline (cstr new_command) = false ->
  chomp new_command = new_command.
Proof.
  induction new_command as [|c rest IH]; intros H; [reflexivity|].
  simpl in *. destruct (Ascii.eqb c NUL); [reflexivity|].
  simpl in H. apply orb_false_iff in H. destruct H as [Hc Hrest].
  rewrite Hc, (IH Hrest). reflexivity.
Qed.

(** A line that went through [tokenize_elements] has no newline left. *)
Lemma chomp_cstr : forall new_command,
  contains newline (cstr (chomp new_command)) = false.
Proof.
  induction new_command as [|c rest IH]; [reflexivity|].
  simpl. destruct (Ascii.eqb c NUL) eqn:En.
  - simpl. rewrite En. reflexivity.
  - destruct (Ascii.eqb c newline) eqn:El.
    + reflexivity.
    + simpl. rewrite En. simpl. rewrite El. exact IH.
Qed.

Lemma strlen_0_char_at (buf : string) :
  strlen buf = 0%nat -> char_at buf 0 = NUL.
Proof.
  unfold strlen, char_at. destruct buf as [|c rest]; [reflexivity|].
  simpl. destruct (Ascii.eqb c NUL) eqn:E; [|discriminate].
  intros _. apply Ascii.eqb_eq. exact E.
Qed.

Lemma tokenize_loop_stop (fuel : nat) (curr_string : string)
    (vector : vect_t) (result : string) (i : nat) :
  char_at curr_string i = NUL ->
  tokenize_loop fuel curr_string vector result i = Normal (vector, result).
Proof.
  intros H. destruct fuel; cbn [tokenize_loop]; rewrite H;
    rewrite andb_false_r; reflexivity.
Qed.

Lemma tokenize_empty (curr_string : string) :
  strlen curr_string = 0%nat -> tokenize curr_string = Normal [].
Proof.
  intros H. unfold tokenize.
  rewrite tokenize_loop_stop by (apply strlen_0_char_at; exact H).
  reflexivity.
Qed.

(** ** The dispatcher *)

Lemma execute_unfold (fuel : nat) (tokens : list string)
    (commands prev_tokens : string) :
  execute fuel tokens commands prev_tokens =
  let nested :=
    match fuel with
    | O => fun _ _ _ => NoFuel
    | S fuel' => execute fuel'
    end in
  if negb (size tokens =? 0) then
    if streq (token tokens 0) "exit" then
      Ret (1, prev_tokens)
    else if has_special tokens >? 0 then
      handle_specials_exec tokens
      ;;; Ret (0, update_prev_tokens commands prev_tokens)
    else if streq (token tokens 0) "cd" then
      handle_cd (size tokens) tokens
      ;;; Ret (0, update_prev_tokens commands prev_tokens)
    else if streq (token tokens 0) "source" then
      handle_source nested fuel tokens
      ;;; Ret (0, update_prev_tokens commands prev_tokens)
    else if streq (token tokens 0) "prev" then
      prev_tokens <- handle_prev nested tokens prev_tokens ;;
      Ret (0, prev_tokens)
    else if streq (token tokens 0) "help" then
      handle_help ;;; Ret (0, update_prev_tokens commands prev_tokens)
    else
      prev_tokens <- no_dir tokens commands
                       (update_prev_tokens commands prev_tokens) ;;
      Ret (0, prev_tokens)
  else Ret (0, prev_tokens).
Proof. destruct fuel; reflexivity. Qed.

Lemma execute_nil (fuel : nat) (commands prev_tokens : string) :
  execute fuel [] commands prev_tokens = Ret (0, prev_tokens).
Proof. destruct fuel; reflexivity. Qed.

Lemma execute_exit (fuel : nat) (rest : list string)
    (commands prev_tokens : string) :
  execute fuel ("exit" :: rest) commands prev_tokens = Ret (1, prev_tokens).
Proof.
  rewrite execute_unfold. unfold size. simpl List.length.
  rewrite Nat2Z.inj_succ.
  destruct (Z.eqb_spec (Z.succ (Z.of_nat (List.length rest))) 0) as [E|_];
    [lia|]. reflexivity.
Qed.

Lemma size_nonempty (tokens : list string) :
  tokens <> [] -> negb (size tokens =? 0) = true.
Proof.
  intros H. unfold size. destruct tokens as [|t rest]; [congruence|].
  simpl List.length. rewrite Nat2Z.inj_succ.
  destruct (Z.eqb_spec (Z.succ (Z.of_nat (List.length rest))) 0) as [E|_];
    [lia|reflexivity].
Qed.

Lemma returns_discard {A B : Type} (m : proc A) (b r : B) :
  returns (m ;;; Ret b) r -> r = b.
Proof.
  intros H. apply returns_bind_inv in H. destruct H as (a & _ & Hb).
  inversion Hb. reflexivity.
Qed.

(** What [handle_prev] leaves in the slot. *)
Lemma handle_prev_returns
    (nested : list string -> string -> string -> proc (Z * string))
    (tokens : list string) (prev_tokens r : string) :
  (forall c p x, returns (nested [] c p) x -> x = (0, p)) ->
  contains newline (cstr prev_tokens) = false ->
  returns (handle_prev nested tokens prev_tokens) r -> r = prev_tokens.
Proof.
  intros Hnested Hnl. unfold handle_prev, tokenize_elements.
  rewrite (chomp_no_newline _ Hnl).
  destruct ((size tokens =? 1) && true).
  - intros H. inversion H as [| | | |s k a Hk| | | | | | | | | | | |]; subst.
    clear H. revert Hk.
    destruct (Nat.eqb (strlen prev_tokens) 0) eqn:E0.
    + apply Nat.eqb_eq in E0. rewrite (tokenize_empty _ E0). simpl.
      rewrite E0. simpl. intros Hk.
      apply returns_bind_inv in Hk. destruct Hk as ([code p] & Hx & Hret).
      apply Hnested in Hx. inversion Hx; subst. inversion Hret. reflexivity.
    + destruct (tokenize_Normal prev_tokens) as (v & ->). simpl.
      rewrite E0. intros Hk. inversion Hk. reflexivity.
  - intros H. inversion H as [| | | |s k a Hk| | | | | | | | | | | |]; subst.
    inversion Hk. reflexivity.
Qed.

Lemma nested_nil (fuel : nat) (c p : string) (x : Z * string) :
  returns (match fuel with
           | O => fun _ _ _ => NoFuel
           | S fuel' => execute fuel'
           end [] c p) x ->
  x = (0, p).
Proof.
  destruct fuel as [|fuel]; intros H; [inversion H|].
  rewrite execute_nil in H. inversion H. reflexivity.
Qed.

(** The values [execute] comes back with, branch by branch. *)
Lemma execute_returns (fuel : nat) (tokens : list string)
    (commands prev_tokens : string) (r : Z * string) :
  returns (execute fuel tokens commands prev_tokens) r ->
  (tokens = [] /\ r = (0, prev_tokens))
  \/ (exists rest, tokens = "exit" :: rest /\ r = (1, prev_tokens))
  \/ (tokens <> [] /\ token tokens 0 <> "exit"
      /\ (has_special tokens > 0 \/ token tokens 0 <> "prev")
      /\ r = (0, update_prev_tokens commands prev_tokens))
  \/ (tokens <> [] /\ has_special tokens = 0 /\ token tokens 0 = "prev"
      /\ fst r = 0
      /\ (contains newline (cstr prev_tokens) = false -> r = (0, prev_tokens))).
Proof.
  rewrite execute_unfold. cbv zeta.
  destruct tokens as [|t rest].
  { simpl. intros H. inversion H. left. split; reflexivity. }
  rewrite size_nonempty by discriminate.
  unfold token at 1. simpl nth. unfold streq at 1.
  destruct (String.eqb_spec t "exit") as [->|Hexit].
  { intros H. inversion H. right. left. exists rest. split; reflexivity. }
  destruct (has_special (t :: rest) >? 0) eqn:Hsp.
  { intros H. apply returns_discard in H. right. right. left.
    repeat split; [discriminate|exact Hexit| |exact H].
    left. apply Z.gtb_lt in Hsp. lia. }
  assert (H0 : has_special (t :: rest) = 0).
  { destruct (has_special_range (t :: rest)) as [E|[E|[E|[E|E]]]];
      rewrite E in Hsp |- *; try reflexivity; discriminate. }
  unfold token. simpl nth. unfold streq.
  destruct (String.eqb_spec t "cd") as [->|Hcd].
  { intros H. apply returns_discard in H. right. right. left.
    repeat split; [discriminate|exact Hexit|right; discriminate|exact H]. }
  destruct (String.eqb_spec t "source") as [->|Hsource].
  { intros H. apply returns_discard in H. right. right. left.
    repeat split; [discriminate|exact Hexit|right; discriminate|exact H]. }
  destruct (String.eqb_spec t "prev") as [->|Hprev].
  { intros H. apply returns_bind_inv in H. destruct H as (p & Hp & Hret).
    inversion Hret; subst. right. right. right.
    repeat split; [discriminate|exact H0|].
    intros Hnl. f_equal.
    eapply handle_prev_returns; [|exact Hnl|exact Hp].
    intros c q x. apply nested_nil. }
  destruct (String.eqb_spec t "help") as [->|Hhelp].
  { intros H. apply returns_discard in H. right. right. left.
    repeat split; [discriminate|exact Hexit|right; discriminate|exact H]. }
  intros H. apply returns_bind_inv in H. destruct H as (p & Hp & Hret).
  inversion Hret; subst. right. right. left.
  repeat split; [discriminate|exact Hexit|right; exact Hprev|].
  unfold no_dir in Hp. inversion Hp; subst.
  match goal with H : returns (Wait _) _ |- _ => inversion H; subst end.
  match goal with H : returns (Ret _) _ |- _ => inversion H; subst end.
  reflexivity.
Qed.

Lemma resolved_returns (callee : list string -> proc unit) (code : Z)
    (left_tokens right_tokens : list string) :
  code = 1 \/ code = 2 \/ code = 3 \/ code = 4 ->
  returns (resolved callee code left_tokens right_tokens) tt.
Proof.
  intros [-> | [-> | [-> | ->]]]; cbn [resolved];
    apply returns_Cells with (c := Some []);
    apply returns_Cells with (c := Some []);
    repeat constructor.
Qed.

Lemma execute_special_n_returns (n : nat) (tokens : list string) :
  has_special tokens > 0 -> returns (execute_special_n (S n) tokens) tt.
Proof.
  intros H.
  destruct (first_special tokens) as (pre & op & post & -> & Hpre & Hop);
    [lia|].
  destruct (execute_special_n_resolved n pre op post Hpre Hop) as [_ ->].
  apply resolved_returns.
  rewrite <- (has_special_app pre op post Hpre Hop).
  destruct (has_special_range (pre ++ op :: post)) as [E|E]; [lia|exact E].
Qed.

Lemma execute_special_returns (tokens : list string) :
  has_special tokens > 0 -> returns (execute_special tokens) tt.
Proof. apply execute_special_n_returns. Qed.

Lemma custom_pipe_returns (callee : list string -> proc unit)
    (tokens : list string) :
  has_special tokens = 4 -> returns (custom_pipe callee tokens) tt.
Proof.
  intros H4.
  destruct (first_special tokens) as (pre & op & post & -> & Hpre & Hop);
    [rewrite H4; discriminate|].
  rewrite (has_special_app pre op post Hpre Hop) in H4.
  destruct (is_special_code op Hop) as [_ Hlit].
  rewrite H4 in Hlit. simpl in Hlit. subst op.
  unfold custom_pipe.
  rewrite (split_first "|" post pre (not_special_not_In pre "|" Hpre Hop)).
  apply returns_Cells with (c := Some []).
  apply returns_Cells with (c := Some []).
  repeat constructor.
Qed.

Lemma handle_specials_exec_returns (tokens : list string) :
  has_special tokens > 0 -> returns (handle_specials_exec tokens) tt.
Proof.
  intros H. unfold handle_specials_exec.
  destruct (Z.eqb_spec (has_special tokens) 4) as [E4|_].
  - destruct (num_pipes tokens >? 1).
    + apply execute_special_returns. exact H.
    + apply custom_pipe_returns. exact E4.
  - apply execute_special_returns. exact H.
Qed.

Lemma handle_cd_returns (tokens_size : Z) (tokens : list string) :
  returns (handle_cd tokens_size tokens) tt.
Proof.
  unfold handle_cd. destruct (tokens_size =? 2).
  - apply returns_Chdir_ok. constructor.
  - destruct (tokens_size =? 1).
    + apply returns_Chdir_ok. constructor.
    + repeat constructor.
Qed.

Lemma handle_source_returns
    (nested : list string -> string -> string -> proc (Z * string))
    (fuel : nat) (tokens : list string) :
  returns (handle_source nested (S fuel) tokens) tt.
Proof.
  unfold handle_source. destruct (size tokens =? 2).
  - apply returns_Uninit with (b := EmptyString).
    apply returns_Fopen_ok. simpl.
    apply returns_Fgets with (r := None). simpl. repeat constructor.
  - repeat constructor.
Qed.

(** Every command that is neither [exit] nor a [prev] without operator
    is recorded, and [execute] comes back with 0. *)
Lemma execute_records (fuel : nat) (tokens : list string)
    (commands prev_tokens : string) :
  tokens <> [] ->
  token tokens 0 <> "exit" ->
  has_special tokens > 0 \/ token tokens 0 <> "prev" ->
  returns (execute (S fuel) tokens commands prev_tokens)
    (0, update_prev_tokens commands prev_tokens).
Proof.
  intros Hne Hexit Hrec. rewrite execute_unfold. cbv zeta.
  rewrite (size_nonempty tokens Hne). unfold streq.
  destruct (String.eqb_spec (token tokens 0) "exit") as [E|_]; [contradiction|].
  destruct (has_special tokens >? 0) eqn:Hsp.
  { eapply returns_bind; [|constructor].
    apply handle_specials_exec_returns. apply Z.gtb_lt in Hsp. lia. }
  destruct (String.eqb_spec (token tokens 0) "cd") as [_|_].
  { eapply returns_bind; [apply handle_cd_returns|constructor]. }
  destruct (String.eqb_spec (token tokens 0) "source") as [_|_].
  { eapply returns_bind; [apply handle_source_returns|constructor]. }
  destruct (String.eqb_spec (token tokens 0) "prev") as [E|_].
  { destruct Hrec as [Hgt|Hn]; [|contradiction].
    assert (Hsp' : (has_special tokens >? 0) = true)
      by (apply Z.gtb_lt; lia).
    congruence. }
  destruct (String.eqb_spec (token tokens 0) "help") as [_|_].
  { eapply returns_bind; [|constructor]. unfold handle_help.
    repeat constructor. }
  eapply returns_bind; [|constructor]. unfold no_dir. repeat constructor.
Qed.

(** [prev] with one token prints the stored line and comes back. *)
Lemma execute_prev (fuel : nat) (commands prev_tokens : string) :
  contains newline (cstr prev_tokens) = false ->
  execute (S fuel) ["prev"] commands prev_tokens
  = Printf (cstr prev_tokens ++ nl) (Ret (0, prev_tokens)).
Proof.
  intros Hnl. rewrite execute_unfold. cbv zeta.
  change (negb (size ["prev"] =? 0)) with true.
  change (streq (token ["prev"] 0) "exit") with false.
  change (has_special ["prev"] >? 0) with false.
  change (streq (token ["prev"] 0) "cd") with false.
  change (streq (token ["prev"] 0) "source") with false.
  change (streq (token ["prev"] 0) "prev") with true.
  cbv iota. unfold handle_prev, tokenize_elements.
  change ((size ["prev"] =? 1) && true) with true. cbv iota.
  rewrite (chomp_no_newline _ Hnl).
  destruct (Nat.eqb (strlen prev_tokens) 0) eqn:E0.
  - apply Nat.eqb_eq in E0. rewrite (tokenize_empty _ E0). simpl.
    rewrite E0. simpl. rewrite execute_nil. reflexivity.
  - destruct (tokenize_Normal prev_tokens) as (v & ->). simpl.
    rewrite E0. reflexivity.
Qed.

(** * The claims *)

(** C1: when a token sequence holds a control operator, [has_special]
    reports the operator at the smallest index, whatever its kind, and
    [execute_special] splits there: the tokens before it hold no operator
    and are the entries written to the left array, the tokens after it the
    entries written to the right array, and the case of that operator is
    the one that runs.  The sequence cat f > out ; echo done is split on
    [>], not on [;]: the file is out and the command starts with cat f. *)
Theorem first_operator_by_position :
  (forall tokens : list string,
     (exists t, In t tokens /\ is_special t = true) ->
     exists pre op post,
       tokens = (pre ++ op :: post)%list
       /\ Forall (fun t => is_special t = false) pre
       /\ is_special op = true
       /\ has_special tokens = special_code op
       /\ literal (has_special tokens) = op
       /\ split (literal (has_special tokens)) tokens = Some (pre, post)
       /\ forall n,
            execute_special_n (S n) tokens
            = resolved (execute_special_n n) (has_special tokens) pre post)
  /\ has_special ["cat"; "f"; ">"; "out"; ";"; "echo"; "done"] = 3
  /\ split ">" ["cat"; "f"; ">"; "out"; ";"; "echo"; "done"]
     = Some (["cat"; "f"], ["out"; ";"; "echo"; "done"])
  /\ execute_special ["cat"; "f"; ">"; "out"; ";"; "echo"; "done"]
     = Cells (fun left_cells => Cells (fun right_cells =>
         Fork
           (Close (Fd 1)
              (Open (Some "out") (O_WRONLY_CREAT_TRUNC 420)
                 (execvp_array ["cat"; "f"] left_cells
                    (Printf ("Incorrect input." ++ nl) (Exit 0)))))
           (Wait (Ret tt)))).
Proof.
  split; [|repeat split; reflexivity].
  intros tokens (t & Hin & Ht).
  destruct (first_special tokens (has_special_In tokens t Hin Ht))
    as (pre & op & post & -> & Hpre & Hop).
  destruct (is_special_code op Hop) as [_ Hlit].
  exists pre, op, post.
  rewrite (has_special_app pre op post Hpre Hop), Hlit.
  repeat split; try assumption.
  - apply split_first, not_special_not_In; assumption.
  - intros n. apply execute_special_n_resolved; assumption.
Qed.

Lemma first_operator_by_position_witness :
  (exists t, In t ["a"; "|"; "b"; ";"; "c"] /\ is_special t = true)
  /\ exists pre op post,
       ["a"; "|"; "b"; ";"; "c"] = (pre ++ op :: post)%list
       /\ Forall (fun t => is_special t = false) pre
       /\ is_special op = true
       /\ has_special ["a"; "|"; "b"; ";"; "c"] = special_code op
       /\ literal (has_special ["a"; "|"; "b"; ";"; "c"]) = op
       /\ split (literal (has_special ["a"; "|"; "b"; ";"; "c"]))
            ["a"; "|"; "b"; ";"; "c"] = Some (pre, post)
       /\ forall n,
            execute_special_n (S n) ["a"; "|"; "b"; ";"; "c"]
            = resolved (execute_special_n n)
                (has_special ["a"; "|"; "b"; ";"; "c"]) pre post.
Proof.
  assert (H : exists t, In t ["a"; "|"; "b"; ";"; "c"] /\ is_special t = true).
  { exists "|". split; [simpl; tauto|reflexivity]. }
  split; [exact H|].
  exact (proj1 first_operator_by_position ["a"; "|"; "b"; ";"; "c"] H).
Defined.

(** C2: when [has_special] reports an operator, [split] on its literal
    gives the tokens strictly before the first occurrence of the literal
    and the tokens strictly after it; left, the literal and right make up
    the sequence again, and the literal does not occur in left. *)
Theorem split_around_first_occurrence (tokens : list string) :
  has_special tokens <> 0 ->
  exists left_tokens right_tokens k,
    split (literal (has_special tokens)) tokens
    = Some (left_tokens, right_tokens)
    /\ (left_tokens ++ [literal (has_special tokens)] ++ right_tokens)%list
       = tokens
    /\ ~ In (literal (has_special tokens)) left_tokens
    /\ nth_error tokens k = Some (literal (has_special tokens))
    /\ (forall j, (j < k)%nat ->
          nth_error tokens j <> Some (literal (has_special tokens)))
    /\ left_tokens = firstn k tokens
    /\ right_tokens = skipn (S k) tokens.
Proof.
  intros H.
  destruct (first_special tokens H) as (pre & op & post & -> & Hpre & Hop).
  destruct (is_special_code op Hop) as [_ Hlit].
  rewrite (has_special_app pre op post Hpre Hop), Hlit.
  pose proof (not_special_not_In pre op Hpre Hop) as Hnin.
  exists pre, post, (List.length pre). repeat split.
  - apply split_first. exact Hnin.
  - exact Hnin.
  - rewrite nth_error_app2 by lia. rewrite Nat.sub_diag. reflexivity.
  - intros j Hj E. rewrite nth_error_app1 in E by exact Hj.
    apply nth_error_In in E. contradiction.
  - rewrite firstn_app, firstn_all, Nat.sub_diag. simpl.
    rewrite app_nil_r. reflexivity.
  - rewrite skipn_app, skipn_all2 by lia.
    replace (S (List.length pre) - List.length pre)%nat with 1%nat by lia.
    reflexivity.
Qed.

Lemma split_around_first_occurrence_witness :
  has_special ["echo"; "hi"; "|"; "wc"; "-w"] <> 0
  /\ exists left_tokens right_tokens k,
       split (literal (has_special ["echo"; "hi"; "|"; "wc"; "-w"]))
         ["echo"; "hi"; "|"; "wc"; "-w"] = Some (left_tokens, right_tokens)
       /\ (left_tokens
           ++ [literal (has_special ["echo"; "hi"; "|"; "wc"; "-w"])]
           ++ right_tokens)%list = ["echo"; "hi"; "|"; "wc"; "-w"]
       /\ ~ In (literal (has_special ["echo"; "hi"; "|"; "wc"; "-w"]))
            left_tokens
       /\ nth_error ["echo"; "hi"; "|"; "wc"; "-w"] k
          = Some (literal (has_special ["echo"; "hi"; "|"; "wc"; "-w"]))
       /\ (forall j, (j < k)%nat ->
             nth_error ["echo"; "hi"; "|"; "wc"; "-w"] j
             <> Some (literal (has_special ["echo"; "hi"; "|"; "wc"; "-w"])))
       /\ left_tokens = firstn k ["echo"; "hi"; "|"; "wc"; "-w"]
       /\ right_tokens = skipn (S k) ["echo"; "hi"; "|"; "wc"; "-w"].
Proof.
  assert (H : has_special ["echo"; "hi"; "|"; "wc"; "-w"] <> 0)
    by (vm_compute; discriminate).
  split; [exact H|].
  exact (split_around_first_occurrence ["echo"; "hi"; "|"; "wc"; "-w"] H).
Defined.

(** C8: when the first operator is [;], the parent forks a child for the
    left side, waits, forks a child for the right side whatever became of
    the first, and waits again.  But the array each child is given ends
    only where a cell behind the written entries holds NULL: the child for
    the left side runs [execute_special] on the left tokens followed by what
    these cells hold, and so does the child for the right side.  With echo
    and y left in the cells, echo x ; echo y starts echo with the arguments
    x echo y. *)
Theorem semicolon_sides_as_read
    (n : nat) (pre post left_stale right_stale : list string) :
  Forall (fun t => is_special t = false) pre ->
  exists k,
    execute_special_n (S n) (pre ++ ";" :: post) = Cells k
    /\ exists k',
         k (Some left_stale) = Cells k'
         /\ k' (Some right_stale)
            = Fork (execute_special_n n (pre ++ left_stale))
                (Wait
                   (Fork (execute_special_n n (post ++ right_stale))
                      (Wait (Ret tt)))).
Proof.
  intros Hpre.
  destruct (execute_special_n_resolved n pre ";" post Hpre eq_refl) as [_ ->].
  change (special_code ";") with 1. cbn [resolved].
  eexists. split; [reflexivity|].
  eexists. split; reflexivity.
Qed.

Lemma semicolon_sides_as_read_witness :
  Forall (fun t => is_special t = false) ["echo"; "x"]
  /\ exists k,
       execute_special ["echo"; "x"; ";"; "echo"; "y"] = Cells k
       /\ exists k',
            k (Some ["echo"; "y"]) = Cells k'
            /\ k' (Some [])
               = Fork
                   (Execvp (Some "echo") ["echo"; "x"; "echo"; "y"]
                      (Printf ("Invalid input." ++ nl) (Exit 0)))
                   (Wait
                      (Fork
                         (Execvp (Some "echo") ["echo"; "y"]
                            (Printf ("Invalid input." ++ nl) (Exit 0)))
                         (Wait (Ret tt)))).
Proof.
  assert (H : Forall (fun t => is_special t = false) ["echo"; "x"])
    by (repeat constructor).
  split; [exact H|].
  exact (semicolon_sides_as_read 5 ["echo"; "x"] ["echo"; "y"]
           ["echo"; "y"] [] H).
Defined.

(** C3: dispatching the single token prev prints the stored line and a
    newline and comes back with the slot as it was; no stored line is run
    again, and with an empty slot the newline is still printed. *)
Theorem prev_prints_and_runs_nothing (fuel : nat) (commands prev_tokens : string) :
  contains newline (cstr prev_tokens) = false ->
  execute (S fuel) ["prev"] commands prev_tokens
  = Printf (cstr prev_tokens ++ nl) (Ret (0, prev_tokens)).
Proof. apply execute_prev. Qed.

Lemma prev_prints_and_runs_nothing_witness :
  contains newline (cstr (update_prev_tokens "ls" EmptyString)) = false
  /\ execute 1 ["prev"] "prev" (update_prev_tokens "ls" EmptyString)
     = Printf ("ls" ++ nl) (Ret (0, update_prev_tokens "ls" EmptyString)).
Proof.
  split; [reflexivity|].
  exact (prev_prints_and_runs_nothing 0 "prev"
           (update_prev_tokens "ls" EmptyString) eq_refl).
Defined.

(** C4: a line with an opening quote and no closing one is tokenized like
    any other: the loop of [handle_quotes] stops at the NUL, the returned
    index is one past it, and [tokenize] goes on with the bytes that
    follow the NUL in the buffer; the shell gets the token from
    [tokenize_elements].  No buffer makes [tokenize] exit. *)
Theorem unterminated_quote_is_tokenized :
  tokenize (String dquote "abc") = Normal ["abc"]
  /\ tokenize (String dquote "ab" ++ String NUL "ls") = Normal ["abls"]
  /\ tokenize_elements (String dquote "abc" ++ nl)
     = Ret (String dquote "abc" ++ String NUL EmptyString, ["abc"])
  /\ forall curr_string status, tokenize curr_string <> Exited status.
Proof.
  split; [reflexivity|]. split; [reflexivity|]. split; [reflexivity|].
  intros buf st H. destruct (tokenize_Normal buf) as (v & Hv).
  rewrite Hv in H. discriminate.
Qed.

(** C5: the run between two quotes is appended to the token buffer and
    stays there: echo and a quoted a b give two tokens, but a quoted a
    followed by b gives the one token ab; the token before a quote is
    flushed, and an empty pair of quotes gives no token. *)
Theorem quoted_run_stays_in_buffer :
  tokenize ("echo " ++ quoted "a b") = Normal ["echo"; "a b"]
  /\ tokenize (quoted "a" ++ "b") = Normal ["ab"]
  /\ tokenize ("x" ++ quoted "a") = Normal ["x"; "a"]
  /\ tokenize ("x " ++ quoted EmptyString ++ " y") = Normal ["x"; "y"].
Proof. repeat split; reflexivity. Qed.

(** C6, as the code has it: no token is empty; and when the line holds no
    double quote, no token holds a space or a backslash followed by t, so
    none is one of the separators. *)
Theorem tokens_not_empty_nor_separator
    (curr_string : string) (vector : vect_t) (t : string) :
  tokenize curr_string = Normal vector ->
  In t vector ->
  t <> EmptyString
  /\ (contains dquote (cstr curr_string) = false ->
      no_separator t = true /\ t <> " " /\ t <> "\t").
Proof.
  unfold tokenize. intros Htok Hin.
  destruct (tokenize_loop MAX_CHAR curr_string vect_new EmptyString 0)
    as [[v r]| |] eqn:Hloop; [|discriminate|discriminate].
  inversion Htok; subst vector; clear Htok. split.
  - pose proof (tokenize_loop_nonempty _ _ _ _ _ _ _ (Forall_nil _) Hloop) as Hv.
    destruct (add_and_reset_Forall (fun t => t <> EmptyString) v r Hv
                (fun H => H)) as [Hall _].
    rewrite Forall_forall in Hall. apply Hall. exact Hin.
  - intros Hq.
    assert (Hsep : no_separator t = true).
    { destruct (tokenize_loop_no_separator MAX_CHAR curr_string vect_new
                  EmptyString 0 v r) as [Hv Hr]; auto.
      - intros j Hj. apply cstr_char_at; assumption.
      - intros k Hk. lia.
      - discriminate.
      - destruct (add_and_reset_Forall (fun t => no_separator t = true) v r Hv
                    (fun _ => Hr)) as [Hall _].
        rewrite Forall_forall in Hall. apply Hall. exact Hin. }
    split; [exact Hsep|].
    split; intros ->; discriminate.
Qed.

Lemma tokens_not_empty_nor_separator_witness :
  tokenize "ls -l" = Normal ["ls"; "-l"]
  /\ In "-l" ["ls"; "-l"]
  /\ contains dquote (cstr "ls -l") = false
  /\ "-l" <> EmptyString
  /\ no_separator "-l" = true /\ "-l" <> " " /\ "-l" <> "\t".
Proof.
  assert (Htok : tokenize "ls -l" = Normal ["ls"; "-l"]) by reflexivity.
  assert (Hin : In "-l" ["ls"; "-l"]) by (simpl; tauto).
  assert (Hq : contains dquote (cstr "ls -l") = false) by reflexivity.
  split; [exact Htok|]. split; [exact Hin|]. split; [exact Hq|].
  destruct (tokens_not_empty_nor_separator "ls -l" ["ls"; "-l"] "-l" Htok Hin)
    as [Hne Hsep].
  split; [exact Hne|exact (Hsep Hq)].
Defined.

(** C6 as the claim has it fails: between quotes a space is taken as it
    is, and the token of a quoted space is a space. *)
Lemma quoted_space_is_a_token :
  tokenize (quoted " ") = Normal [" "] /\ In " " [" "].
Proof. split; [reflexivity|left; reflexivity]. Qed.




Lemma handle_prev_may_return (fuel : nat) (tokens : list string)
    (prev_tokens : string) :
  contains newline (cstr prev_tokens) = false ->
  returns (handle_prev (execute fuel) tokens prev_tokens) prev_tokens.
Proof.
  intros Hnl. unfold handle_prev, tokenize_elements.
  rewrite (chomp_no_newline _ Hnl).
  destruct ((size tokens =? 1) && true); [|repeat constructor].
  constructor. destruct (Nat.eqb (strlen prev_tokens) 0) eqn:E0.
  - apply Nat.eqb_eq in E0. rewrite (tokenize_empty _ E0). simpl.
    rewrite E0. simpl. rewrite execute_nil. simpl. constructor.
  - destruct (tokenize_Normal prev_tokens) as (v & ->). simpl.
    rewrite E0. constructor.
Qed.

(** C9, as the code has it: a command whose first token is not exit and
    which holds an operator or does not start with prev (cd, source, help,
    operator-bearing and leaf commands) is recorded: [execute] comes back
    with 0 and the slot holds the bytes of the command buffer, so the line
    itself.  A prev without operator, exit, and an empty line leave the slot
    as it was.  After cd /tmp the slot holds cd /tmp, and prev leaves it. *)
Theorem previous_command_slot
    (fuel : nat) (tokens : list string) (commands prev_tokens : string) :
  (tokens <> [] -> token tokens 0 <> "exit" ->
   has_special tokens > 0 \/ token tokens 0 <> "prev" ->
   returns (execute (S fuel) tokens commands prev_tokens)
     (0, update_prev_tokens commands prev_tokens)
   /\ (forall r, returns (execute (S fuel) tokens commands prev_tokens) r ->
                 r = (0, update_prev_tokens commands prev_tokens))
   /\ ((strlen commands < MAX_CHAR)%nat ->
       cstr (update_prev_tokens commands prev_tokens) = cstr commands))
  /\ (has_special tokens = 0 -> token tokens 0 = "prev" ->
      contains newline (cstr prev_tokens) = false ->
      returns (execute (S fuel) tokens commands prev_tokens) (0, prev_tokens)
      /\ forall r, returns (execute (S fuel) tokens commands prev_tokens) r ->
                   r = (0, prev_tokens))
  /\ (forall rest,
        execute (S fuel) ("exit" :: rest) commands prev_tokens
        = Ret (1, prev_tokens))
  /\ execute (S fuel) [] commands prev_tokens = Ret (0, prev_tokens)
  /\ cstr (update_prev_tokens "cd /tmp" prev_tokens) = "cd /tmp"
  /\ returns (execute 1 ["cd"; "/tmp"] "cd /tmp" prev_tokens)
       (0, update_prev_tokens "cd /tmp" prev_tokens)
  /\ execute 1 ["prev"] "prev" (update_prev_tokens "cd /tmp" prev_tokens)
     = Printf ("cd /tmp" ++ nl)
         (Ret (0, update_prev_tokens "cd /tmp" prev_tokens)).
Proof.
  split; [|split; [|split; [|split; [|split; [|split]]]]].
  - intros Hne Hexit Hrec. split; [apply execute_records; assumption|].
    split; [|apply update_prev_tokens_cstr].
    intros r Hr. apply execute_returns in Hr.
    destruct Hr as [[H _]|[(rest & H & _)|[(_ & _ & _ & H)|
                    (_ & H0 & Hprev & _)]]].
    + contradiction.
    + subst tokens. exfalso. apply Hexit. reflexivity.
    + exact H.
    + destruct Hrec as [Hgt|Hn]; [lia|contradiction].
  - intros H0 Hprev Hnl. split.
    + rewrite execute_unfold. cbv zeta.
      assert (Hne : tokens <> []) by (intros ->; discriminate).
      rewrite (size_nonempty tokens Hne), Hprev, H0.
      change (streq "prev" "exit") with false.
      change (0 >? 0) with false.
      change (streq "prev" "cd") with false.
      change (streq "prev" "source") with false.
      change (streq "prev" "prev") with true. cbv iota.
      eapply returns_bind; [apply handle_prev_may_return; exact Hnl|].
      constructor.
    + intros r Hr. apply execute_returns in Hr.
      destruct Hr as [[H _]|[(rest & H & _)|[(_ & _ & Hrec & _)|
                      (_ & _ & _ & _ & H)]]].
      * subst tokens. discriminate.
      * subst tokens. discriminate.
      * destruct Hrec as [Hgt|Hn]; [lia|contradiction].
      * apply H. exact Hnl.
  - intros rest. apply execute_exit.
  - apply execute_nil.
  - reflexivity.
  - apply execute_records; [discriminate|discriminate|right; discriminate].
  - apply execute_prev. reflexivity.
Qed.

Lemma previous_command_slot_witness :
  ["printf"; "x"; ">"; "out"] <> []
  /\ token ["printf"; "x"; ">"; "out"] 0 <> "exit"
  /\ (has_special ["printf"; "x"; ">"; "out"] > 0
      \/ token ["printf"; "x"; ">"; "out"] 0 <> "prev")
  /\ (strlen "printf x > out" < MAX_CHAR)%nat
  /\ returns (execute 1 ["printf"; "x"; ">"; "out"] "printf x > out" "ls")
       (0, update_prev_tokens "printf x > out" "ls")
  /\ cstr (update_prev_tokens "printf x > out" "ls") = cstr "printf x > out"
  /\ has_special ["prev"] = 0
  /\ token ["prev"] 0 = "prev"
  /\ contains newline (cstr "ls") = false
  /\ returns (execute 1 ["prev"] "prev" "ls") (0, "ls").
Proof.
  assert (H1 : ["printf"; "x"; ">"; "out"] <> []) by discriminate.
  assert (H2 : token ["printf"; "x"; ">"; "out"] 0 <> "exit") by discriminate.
  assert (H3 : has_special ["printf"; "x"; ">"; "out"] > 0
               \/ token ["printf"; "x"; ">"; "out"] 0 <> "prev")
    by (left; reflexivity).
  assert (H4 : (strlen "printf x > out" < MAX_CHAR)%nat)
    by (vm_compute; lia).
  assert (H5 : has_special ["prev"] = 0) by reflexivity.
  assert (H6 : token ["prev"] 0 = "prev") by reflexivity.
  assert (H7 : contains newline (cstr "ls") = false) by reflexivity.
  destruct (proj1 (previous_command_slot 0 ["printf"; "x"; ">"; "out"]
                     "printf x > out" "ls") H1 H2 H3) as (Hm & _ & Hc).
  destruct (proj1 (proj2 (previous_command_slot 0 ["prev"] "prev" "ls"))
              H5 H6 H7) as (Hp & _).
  repeat (split; [assumption|]).
  split; [exact (Hc H4)|].
  repeat (split; [assumption|]). exact Hp.
Defined.

(** C9 as the claim has it fails: exit is dispatched without being
    recorded; the slot still holds the line before it. *)
Lemma exit_is_not_recorded :
  execute 1 ["exit"] "exit" (update_prev_tokens "ls" EmptyString)
  = Ret (1, update_prev_tokens "ls" EmptyString)
  /\ cstr (update_prev_tokens "ls" EmptyString) = "ls"
  /\ cstr (update_prev_tokens "ls" EmptyString) <> cstr "exit".
Proof. repeat split; try reflexivity. vm_compute. discriminate. Qed.


(** * Further properties *)

(** ** Strings *)

Lemma string_length_app (a b : string) :
  String.length (a ++ b) = (String.length a + String.length b)%nat.
Proof. induction a as [|c a IH]; simpl; [reflexivity|]. rewrite IH. reflexivity. Qed.

Lemma string_app_assoc (a b c : string) : (a ++ b) ++ c = a ++ (b ++ c).
Proof. induction a as [|d a IH]; simpl; [reflexivity|]. rewrite IH. reflexivity. Qed.

Lemma holds_start (buf : string) : holds buf 0 buf.
Proof. intros j. reflexivity. Qed.

Lemma holds_head (buf : string) (i : nat) (c : ascii) (s : string) :
  holds buf i (String c s) -> char_at buf i = c /\ holds buf (i + 1) s.
Proof.
  intros H. split.
  - specialize (H 0%nat). rewrite Nat.add_0_r in H. exact H.
  - intros j. specialize (H (S j)). rewrite char_at_String in H.
    rewrite <- H. f_equal. lia.
Qed.

Lemma holds_end (buf : string) (i : nat) :
  holds buf i EmptyString -> char_at buf i = NUL.
Proof. intros H. specialize (H 0%nat). rewrite Nat.add_0_r in H. exact H. Qed.

Lemma holds_app (buf : string) : forall (a b : string) (i : nat),
  holds buf i (a ++ b) -> holds buf (i + String.length a) b.
Proof.
  induction a as [|c a IH]; intros b i H; simpl in *.
  - rewrite Nat.add_0_r. exact H.
  - apply holds_head in H. destruct H as [_ H]. apply IH in H.
    replace (i + S (String.length a))%nat with (i + 1 + String.length a)%nat by lia.
    exact H.
Qed.

Lemma holds_not_t (buf : string) (i : nat) (s : string) :
  holds buf i s -> starts_with "t" s = false ->
  Ascii.eqb (char_at buf i) "t" = false.
Proof.
  intros H Hs. destruct s as [|c s].
  - rewrite (holds_end _ _ H). reflexivity.
  - apply holds_head in H. destruct H as [-> _]. exact Hs.
Qed.

(** ** Words go through [tokenize] unchanged *)

(** The loop appends a plain word byte by byte. *)
Lemma tokenize_loop_word : forall (w rest : string) fuel curr_string vector result i,
  all_chars plain_char w = true ->
  no_separator w = true ->
  starts_with "t" rest = false ->
  holds curr_string i (w ++ rest) ->
  (i + String.length w <= MAX_CHAR)%nat ->
  tokenize_loop (String.length w + fuel) curr_string vector result i
  = tokenize_loop fuel curr_string vector (result ++ w) (i + String.length w).
Proof.
  induction w as [|c w IH]; intros rest fuel buf vec res i Hall Hsep Hrest Hh Hlen.
  - simpl. rewrite Nat.add_0_r.
    replace (res ++ "") with res; [reflexivity|].
    clear. induction res as [|d res IH]; simpl; [reflexivity|]. rewrite <- IH. reflexivity.
  - simpl in Hall. apply andb_true_iff in Hall. destruct Hall as [Hc Hall].
    unfold plain_char in Hc.
    apply andb_true_iff in Hc. destruct Hc as [Hc Hop].
    apply andb_true_iff in Hc. destruct Hc as [Hc Hdq].
    apply andb_true_iff in Hc. destruct Hc as [Hnul Hsp].
    simpl in Hsep. apply andb_true_iff in Hsep. destruct Hsep as [Hsep Hsepw].
    apply andb_true_iff in Hsep. destruct Hsep as [_ Hbs].
    simpl in Hh. apply holds_head in Hh. destruct Hh as [Hci Hh].
    simpl String.length in *. cbn [Nat.add tokenize_loop].
    rewrite Hci.
    assert (Hlt : (i <? MAX_CHAR)%nat = true) by (apply Nat.ltb_lt; lia).
    rewrite Hlt, Hnul. cbn [andb].
    apply negb_true_iff in Hsp. rewrite Hsp.
    assert (Hnext : Ascii.eqb c backslash
                    && Ascii.eqb (char_at buf (i + 1)) "t" = false).
    { destruct (Ascii.eqb c backslash) eqn:Eb; [|reflexivity]. simpl.
      apply (holds_not_t _ _ _ Hh).
      simpl in Hbs. apply negb_true_iff in Hbs.
      destruct w as [|d w]; [exact Hrest|exact Hbs]. }
    assert (Htab : Ascii.eqb c backslash && (i + 1 <? MAX_CHAR)%nat
                   && negb (Ascii.eqb (char_at buf (i + 1)) NUL)
                   && Ascii.eqb (char_at buf (i + 1)) "t" = false).
    { destruct (Ascii.eqb c backslash); [|reflexivity].
      simpl in Hnext. rewrite Hnext. apply andb_false_r. }
    rewrite Htab.
    apply negb_true_iff in Hdq. rewrite Hdq.
    apply Z.eqb_eq in Hop. rewrite Hop. cbn [Z.eqb].
    rewrite (IH rest fuel buf vec (strncat1 res c) (i + 1)%nat); auto; [|lia].
    unfold strncat1. rewrite string_app_assoc. simpl.
    f_equal. lia.
Qed.

(** Words separated by single spaces come out one token each; the last
    one is still in the buffer when the loop stops. *)
Lemma tokenize_loop_words : forall (front : list string) (last : string)
    fuel curr_string vector i,
  Forall (fun w => plain_word w = true) front ->
  plain_word last = true ->
  holds curr_string i (String.concat " " (front ++ [last])) ->
  (i + String.length (String.concat " " (front ++ [last])) <= MAX_CHAR)%nat ->
  tokenize_loop (String.length (String.concat " " (front ++ [last])) + fuel)
    curr_string vector EmptyString i
  = Normal ((vector ++ front)%list, last).
Proof.
  induction front as [|w front IH]; intros last fuel buf vec i Hfront Hlast Hh Hlen.
  - simpl in *. unfold plain_word in Hlast.
    apply andb_true_iff in Hlast. destruct Hlast as [Hlast Hsep].
    apply andb_true_iff in Hlast. destruct Hlast as [_ Hall].
    replace last with (last ++ "") in Hh
      by (clear; induction last as [|d l IH]; simpl; [|rewrite IH]; reflexivity).
    rewrite (tokenize_loop_word last "" fuel buf vec "" i Hall Hsep eq_refl Hh Hlen).
    apply holds_app in Hh. apply holds_end in Hh.
    rewrite (tokenize_loop_stop _ _ _ _ _ Hh). rewrite app_nil_r. reflexivity.
  - inversion Hfront as [|w' f' Hw Hfront']; subst.
    assert (Hcat : String.concat " " ((w :: front) ++ [last])
                   = w ++ String space (String.concat " " (front ++ [last]))).
    { simpl. destruct (front ++ [last])%list eqn:E; [|reflexivity].
      destruct front; discriminate. }
    rewrite Hcat in *. clear Hcat.
    set (tail := String.concat " " (front ++ [last])) in *.
    unfold plain_word in Hw.
    apply andb_true_iff in Hw. destruct Hw as [Hw Hsep].
    apply andb_true_iff in Hw. destruct Hw as [Hne Hall].
    rewrite string_length_app in *. simpl String.length in *.
    replace (String.length w + S (String.length tail) + fuel)%nat
      with (String.length w + S (String.length tail + fuel))%nat by lia.
    rewrite (tokenize_loop_word w (String space tail) _ buf vec "" i
               Hall Hsep eq_refl Hh) by lia.
    apply holds_app in Hh. apply holds_head in Hh. destruct Hh as [Hsp Hh].
    cbn [tokenize_loop]. rewrite Hsp.
    assert (Hlt : (i + String.length w <? MAX_CHAR)%nat = true)
      by (apply Nat.ltb_lt; lia).
    rewrite Hlt. cbn [andb negb Ascii.eqb]. simpl (Ascii.eqb space NUL).
    cbn [negb]. simpl (Ascii.eqb space space). cbn iota.
    simpl ("" ++ w).
    destruct (add_and_reset_cases vec w) as [[_ ->]|[-> _]];
      [|discriminate].
    unfold vect_add. subst tail.
    rewrite (IH last fuel buf (vec ++ [w])%list _ Hfront' Hlast Hh) by lia.
    rewrite <- app_assoc. reflexivity.
Qed.

(** X1: a sequence of plain words, written with single spaces between
    them on a line that fits the buffer, is tokenized into these words. *)
Theorem tokenize_concat_words (tokens : list string) :
  Forall (fun w => plain_word w = true) tokens ->
  (String.length (String.concat " " tokens) < MAX_CHAR)%nat ->
  tokenize (String.concat " " tokens) = Normal tokens.
Proof.
  intros Hall Hlen.
  destruct tokens as [|w ws] using rev_ind; [reflexivity|]. clear IHws.
  apply Forall_app in Hall. destruct Hall as [Hfront Hlast].
  inversion Hlast as [|x l Hw _]; subst.
  unfold tokenize.
  replace (tokenize_loop MAX_CHAR (String.concat " " (ws ++ [w])) vect_new "" 0)
    with (tokenize_loop
            (String.length (String.concat " " (ws ++ [w]))
             + (MAX_CHAR - String.length (String.concat " " (ws ++ [w]))))
            (String.concat " " (ws ++ [w])) vect_new "" 0)
    by (f_equal; lia).
  rewrite (tokenize_loop_words ws w _ _ vect_new 0 Hfront Hw (holds_start _))
    by (simpl; lia).
  simpl app. unfold plain_word in Hw.
  destruct (add_and_reset_cases ws w) as [[_ ->]|[-> _]]; [reflexivity|].
  discriminate.
Qed.

Lemma tokenize_concat_words_witness :
  Forall (fun w => plain_word w = true) ["grep"; "-c"; "a\b"; "file.txt"]
  /\ (String.length (String.concat " " ["grep"; "-c"; "a\b"; "file.txt"])
      < MAX_CHAR)%nat
  /\ tokenize (String.concat " " ["grep"; "-c"; "a\b"; "file.txt"])
     = Normal ["grep"; "-c"; "a\b"; "file.txt"].
Proof.
  assert (H1 : Forall (fun w => plain_word w = true)
                 ["grep"; "-c"; "a\b"; "file.txt"])
    by (repeat constructor).
  assert (H2 : (String.length (String.concat " " ["grep"; "-c"; "a\b"; "file.txt"])
                < MAX_CHAR)%nat) by (vm_compute; lia).
  split; [exact H1|]. split; [exact H2|].
  exact (tokenize_concat_words ["grep"; "-c"; "a\b"; "file.txt"] H1 H2).
Defined.

(** ** Bytes after the terminator *)

Lemma cstr_nil_char_at (buf : string) :
  cstr buf = EmptyString -> char_at buf 0 = NUL.
Proof.
  intros H. apply strlen_0_char_at. unfold strlen. rewrite H. reflexivity.
Qed.

(** Two buffers that hold the same C string agree up to and including
    the terminator. *)
Lemma cstr_eq_char_at : forall (a b : string) (i : nat),
  cstr a = cstr b ->
  (forall k, (k < i)%nat -> char_at a k <> NUL) ->
  char_at a i = char_at b i.
Proof.
  induction a as [|c a IH]; intros b i Heq Hpre.
  - destruct i as [|i].
    + symmetry. apply cstr_nil_char_at. symmetry. exact Heq.
    + exfalso. apply (Hpre 0%nat); [lia|reflexivity].
  - simpl in Heq. destruct (Ascii.eqb c NUL) eqn:Ec.
    + apply Ascii.eqb_eq in Ec. subst c. destruct i as [|i].
      * symmetry. apply cstr_nil_char_at. symmetry. exact Heq.
      * exfalso. apply (Hpre 0%nat); [lia|reflexivity].
    + destruct b as [|d b]; [discriminate|]. simpl in Heq.
      destruct (Ascii.eqb d NUL); [discriminate|].
      inversion Heq; subst d. destruct i as [|i]; [reflexivity|].
      rewrite !char_at_String. apply IH; [assumption|].
      intros k Hk. rewrite <- char_at_String with (c := c). apply Hpre. lia.
Qed.

Lemma tokenize_loop_cstr : forall fuel (buf1 buf2 : string) vector result i,
  cstr buf1 = cstr buf2 ->
  contains dquote (cstr buf1) = false ->
  (forall k, (k < i)%nat -> char_at buf1 k <> NUL) ->
  tokenize_loop fuel buf2 vector result i
  = tokenize_loop fuel buf1 vector result i.
Proof.
  induction fuel as [|fuel IH]; intros buf1 buf2 vec res i Heq Hq Hpre;
    cbn [tokenize_loop];
    rewrite <- (cstr_eq_char_at buf1 buf2 i Heq Hpre); [reflexivity|].
  destruct ((i <? MAX_CHAR)%nat && negb (Ascii.eqb (char_at buf1 i) NUL))
    eqn:Econd; [|reflexivity].
  apply andb_true_iff in Econd. destruct Econd as [_ Hnul].
  apply negb_true_iff in Hnul. apply Ascii.eqb_neq in Hnul.
  assert (Hpre' : forall k, (k <= i)%nat -> char_at buf1 k <> NUL).
  { intros k Hk. destruct (Nat.eq_dec k i) as [->|Hne]; [exact Hnul|].
    apply Hpre. lia. }
  assert (Hnext : forall k, (k < i + 1)%nat -> char_at buf1 k <> NUL)
    by (intros k Hk; apply Hpre'; lia).
  rewrite <- (cstr_eq_char_at buf1 buf2 (i + 1) Heq Hnext).
  destruct (Ascii.eqb (char_at buf1 i) space).
  { destruct (add_and_reset vec res). apply IH; assumption. }
  destruct (Ascii.eqb (char_at buf1 i) backslash && (i + 1 <? MAX_CHAR)%nat
            && negb (Ascii.eqb (char_at buf1 (i + 1)) NUL)
            && Ascii.eqb (char_at buf1 (i + 1)) "t") eqn:Etab.
  { destruct (add_and_reset vec res). apply IH; try assumption.
    apply andb_true_iff in Etab. destruct Etab as [Etab _].
    apply andb_true_iff in Etab. destruct Etab as [_ En].
    apply negb_true_iff in En. apply Ascii.eqb_neq in En.
    intros k Hk. destruct (Nat.eq_dec k (i + 1)) as [->|Hne]; [exact En|].
    apply Hpre'. lia. }
  destruct (Ascii.eqb (char_at buf1 i) dquote) eqn:Edq.
  { apply Ascii.eqb_eq in Edq. exfalso.
    exact (cstr_char_at dquote buf1 i Hq Hpre' Edq). }
  destruct (Z.eqb (special_char (char_at buf1 i)) 1).
  { destruct (add_and_reset vec res) as [vec' res'].
    destruct (add_and_reset vec' (strncat1 res' (char_at buf1 i))).
    apply IH; assumption. }
  apply IH; assumption.
Qed.

Lemma tokenize_cstr_eq (buf1 buf2 : string) :
  cstr buf1 = cstr buf2 ->
  contains dquote (cstr buf1) = false ->
  tokenize buf2 = tokenize buf1.
Proof.
  intros Heq Hq. unfold tokenize.
  rewrite (tokenize_loop_cstr MAX_CHAR buf1 buf2 vect_new "" 0 Heq Hq);
    [reflexivity|].
  intros k Hk. lia.
Qed.

(** X2: on a line without double quote that fits the buffer [tokenize]
    reads nothing behind the terminating NUL: buffers that hold the same C
    string give the same tokens, whatever bytes follow. *)
Theorem tokenize_reads_the_c_string (buf1 buf2 : string) :
  (strlen buf1 < MAX_CHAR)%nat ->
  cstr buf1 = cstr buf2 ->
  contains dquote (cstr buf1) = false ->
  tokenize buf2 = tokenize buf1.
Proof. intros _. apply tokenize_cstr_eq. Qed.

Lemma tokenize_reads_the_c_string_witness :
  (strlen ("ls -l" ++ String NUL "rm -rf") < MAX_CHAR)%nat
  /\ cstr ("ls -l" ++ String NUL "rm -rf") = cstr "ls -l"
  /\ contains dquote (cstr ("ls -l" ++ String NUL "rm -rf")) = false
  /\ tokenize "ls -l" = tokenize ("ls -l" ++ String NUL "rm -rf").
Proof.
  assert (H0 : (strlen ("ls -l" ++ String NUL "rm -rf") < MAX_CHAR)%nat)
    by (vm_compute; lia).
  assert (H1 : cstr ("ls -l" ++ String NUL "rm -rf") = cstr "ls -l")
    by reflexivity.
  assert (H2 : contains dquote (cstr ("ls -l" ++ String NUL "rm -rf")) = false)
    by reflexivity.
  split; [exact H0|]. split; [exact H1|]. split; [exact H2|].
  exact (tokenize_reads_the_c_string _ _ H0 H1 H2).
Defined.

(** ** Operator characters *)

Lemma all_chars_strncat1 (p : ascii -> bool) (c : ascii) : forall s,
  all_chars p (strncat1 s c) = all_chars p s && p c.
Proof.
  unfold strncat1. induction s as [|d s IH]; simpl.
  - rewrite andb_true_r. reflexivity.
  - rewrite IH, andb_assoc. reflexivity.
Qed.

Lemma special_char_0_or_1 (c : ascii) :
  special_char c = 0%Z \/ special_char c = 1%Z.
Proof. unfold special_char. destruct (_ || _); auto. Qed.

Lemma tokenize_loop_operators : forall fuel curr_string vector result i v r,
  (forall j, (forall k, (k <= j)%nat -> char_at curr_string k <> NUL) ->
             char_at curr_string j <> dquote) ->
  (forall k, (k < i)%nat -> char_at curr_string k <> NUL) ->
  Forall (fun t => operator_token t || operator_free t = true) vector ->
  operator_free result = true ->
  tokenize_loop fuel curr_string vector result i = Normal (v, r) ->
  Forall (fun t => operator_token t || operator_free t = true) v
  /\ operator_free r = true.
Proof.
  induction fuel as [|fuel IH]; intros buf vec res i v r Hq Hpre Hvec Hres;
    cbn [tokenize_loop].
  - destruct ((i <? MAX_CHAR)%nat && negb (Ascii.eqb (char_at buf i) NUL));
      intros H; inversion H; subst; auto.
  - destruct ((i <? MAX_CHAR)%nat && negb (Ascii.eqb (char_at buf i) NUL))
      eqn:Econd; [|intros H; inversion H; subst; auto].
    apply andb_true_iff in Econd. destruct Econd as [_ Hnul].
    apply negb_true_iff in Hnul. apply Ascii.eqb_neq in Hnul.
    assert (Hpre' : forall k, (k <= i)%nat -> char_at buf k <> NUL).
    { intros k Hk. destruct (Nat.eq_dec k i) as [->|Hne]; [exact Hnul|].
      apply Hpre. lia. }
    assert (Hnext : forall k, (k < i + 1)%nat -> char_at buf k <> NUL)
      by (intros k Hk; apply Hpre'; lia).
    assert (Hflush : res <> EmptyString ->
                     operator_token res || operator_free res = true)
      by (intros _; rewrite Hres; apply orb_true_r).
    destruct (Ascii.eqb (char_at buf i) space).
    { flush (fun t : string => operator_token t || operator_free t = true)
        vec res vec' Hvec'.
      apply IH; auto. }
    destruct (Ascii.eqb (char_at buf i) backslash && (i + 1 <? MAX_CHAR)%nat
              && negb (Ascii.eqb (char_at buf (i + 1)) NUL)
              && Ascii.eqb (char_at buf (i + 1)) "t") eqn:Etab.
    { flush (fun t : string => operator_token t || operator_free t = true)
        vec res vec' Hvec'.
      apply IH; auto.
      apply andb_true_iff in Etab. destruct Etab as [Etab _].
      apply andb_true_iff in Etab. destruct Etab as [_ En].
      apply negb_true_iff in En. apply Ascii.eqb_neq in En.
      intros k Hk. destruct (Nat.eq_dec k (i + 1)) as [->|Hne]; [exact En|].
      apply Hpre'. lia. }
    destruct (Ascii.eqb (char_at buf i) dquote) eqn:Edq.
    { apply Ascii.eqb_eq in Edq. exfalso. exact (Hq i Hpre' Edq). }
    destruct (Z.eqb (special_char (char_at buf i)) 1) eqn:Especial.
    { flush (fun t : string => operator_token t || operator_free t = true)
        vec res vec' Hvec'.
      assert (Hone : strncat1 EmptyString (char_at buf i) <> EmptyString ->
                     operator_token (strncat1 EmptyString (char_at buf i))
                     || operator_free (strncat1 EmptyString (char_at buf i))
                     = true).
      { intros _. simpl. rewrite Especial. reflexivity. }
      flush (fun t : string => operator_token t || operator_free t = true) vec'
        (strncat1 EmptyString (char_at buf i)) vec'' Hvec''.
      apply IH; auto. }
    apply IH; auto.
    unfold operator_free in *. rewrite all_chars_strncat1, Hres. simpl.
    destruct (special_char_0_or_1 (char_at buf i)) as [E|E]; rewrite E in *;
      [reflexivity|discriminate].
Qed.

(** X3: on a line without double quote that fits the buffer every token is
    either one operator character by itself or holds no operator character
    at all: the characters < > ; ( ) | never stay inside a word. *)
Theorem operators_are_tokens_of_their_own
    (curr_string : string) (vector : vect_t) (t : string) :
  (strlen curr_string < MAX_CHAR)%nat ->
  tokenize curr_string = Normal vector ->
  contains dquote (cstr curr_string) = false ->
  In t vector ->
  operator_token t = true \/ operator_free t = true.
Proof.
  unfold tokenize. intros _ Htok Hq Hin.
  destruct (tokenize_loop MAX_CHAR curr_string vect_new EmptyString 0)
    as [[v r]| |] eqn:Hloop; [|discriminate|discriminate].
  inversion Htok; subst vector; clear Htok.
  destruct (tokenize_loop_operators MAX_CHAR curr_string vect_new
              EmptyString 0 v r) as [Hv Hr]; auto.
  - intros j Hj. apply cstr_char_at; assumption.
  - intros k Hk. lia.
  - destruct (add_and_reset_Forall
                (fun t => operator_token t || operator_free t = true) v r Hv)
      as [Hall _].
    + intros _. rewrite Hr. apply orb_true_r.
    + rewrite Forall_forall in Hall. apply orb_true_iff. apply Hall. exact Hin.
Qed.

Lemma operators_are_tokens_of_their_own_witness :
  (strlen "cat<in|(wc)>out;ls" < MAX_CHAR)%nat
  /\ tokenize "cat<in|(wc)>out;ls" = Normal
    ["cat"; "<"; "in"; "|"; "("; "wc"; ")"; ">"; "out"; ";"; "ls"]
  /\ contains dquote (cstr "cat<in|(wc)>out;ls") = false
  /\ In ")" ["cat"; "<"; "in"; "|"; "("; "wc"; ")"; ">"; "out"; ";"; "ls"]
  /\ (operator_token ")" = true \/ operator_free ")" = true).
Proof.
  assert (H1 : tokenize "cat<in|(wc)>out;ls" = Normal
            ["cat"; "<"; "in"; "|"; "("; "wc"; ")"; ">"; "out"; ";"; "ls"])
    by reflexivity.
  assert (H2 : contains dquote (cstr "cat<in|(wc)>out;ls") = false)
    by reflexivity.
  assert (H3 : In ")" ["cat"; "<"; "in"; "|"; "("; "wc"; ")"; ">"; "out"; ";"; "ls"])
    by (simpl; tauto).
  assert (H0 : (strlen "cat<in|(wc)>out;ls" < MAX_CHAR)%nat)
    by (vm_compute; lia).
  split; [exact H0|].
  split; [exact H1|]. split; [exact H2|]. split; [exact H3|].
  exact (operators_are_tokens_of_their_own _ _ _ H0 H1 H2 H3).
Defined.

(** ** What the shell makes of a line *)

Lemma chomp_line : forall (line rest : string),
  contains NUL line = false ->
  contains newline line = false ->
  chomp (line ++ String newline rest) = line ++ String NUL rest.
Proof.
  induction line as [|c line IH]; intros rest Hn Hl; simpl.
  - reflexivity.
  - simpl in Hn, Hl. apply orb_false_iff in Hn. destruct Hn as [Hc Hn].
    apply orb_false_iff in Hl. destruct Hl as [Hcl Hl].
    rewrite Hc, Hcl, IH by assumption. reflexivity.
Qed.

Lemma cstr_line : forall (line rest : string),
  contains NUL line = false ->
  cstr (line ++ String NUL rest) = line /\ cstr line = line.
Proof.
  induction line as [|c line IH]; intros rest Hn; simpl.
  - split; reflexivity.
  - simpl in Hn. apply orb_false_iff in Hn. destruct Hn as [Hc Hn].
    rewrite Hc. destruct (IH rest Hn) as [-> ->]. split; reflexivity.
Qed.

(** X4: [tokenize_elements] on what [fgets] stores for a line without
    double quote, the line, its newline and whatever the array held behind
    it, puts a NUL in place of the newline and gives the tokens of the line
    alone. *)
Theorem tokenize_elements_of_a_line (line rest : string) :
  (String.length line < MAX_CHAR)%nat ->
  contains NUL line = false ->
  contains newline line = false ->
  contains dquote line = false ->
  exists tokens,
    tokenize line = Normal tokens
    /\ tokenize_elements (line ++ String newline rest)
       = Ret (line ++ String NUL rest, tokens).
Proof.
  intros _ Hn Hl Hq.
  destruct (tokenize_Normal line) as (tokens & Htok).
  exists tokens. split; [exact Htok|].
  unfold tokenize_elements. rewrite (chomp_line line rest Hn Hl).
  destruct (cstr_line line rest Hn) as [H1 H2].
  rewrite (tokenize_cstr_eq line (line ++ String NUL rest)).
  - rewrite Htok. reflexivity.
  - rewrite H1, H2. reflexivity.
  - rewrite H2. exact Hq.
Qed.

Lemma tokenize_elements_of_a_line_witness :
  (String.length "wc -w" < MAX_CHAR)%nat
  /\ contains NUL "wc -w" = false
  /\ contains newline "wc -w" = false
  /\ contains dquote "wc -w" = false
  /\ exists tokens,
       tokenize "wc -w" = Normal tokens
       /\ tokenize_elements ("wc -w" ++ String newline "old bytes")
          = Ret ("wc -w" ++ String NUL "old bytes", tokens).
Proof.
  assert (H1 : contains NUL "wc -w" = false) by reflexivity.
  assert (H2 : contains newline "wc -w" = false) by reflexivity.
  assert (H3 : contains dquote "wc -w" = false) by reflexivity.
  assert (H0 : (String.length "wc -w" < MAX_CHAR)%nat) by (vm_compute; lia).
  split; [exact H0|].
  split; [exact H1|]. split; [exact H2|]. split; [exact H3|].
  exact (tokenize_elements_of_a_line "wc -w" "old bytes" H0 H1 H2 H3).
Defined.

(** ** The scanner, the splitter and the pipe counter *)

Lemma is_special_false (t : string) :
  is_special t = false <-> t <> ";" /\ t <> "<" /\ t <> ">" /\ t <> "|".
Proof.
  unfold is_special, streq. split.
  - intros H. repeat (apply orb_false_iff in H; destruct H as [H ?]).
    repeat split; intros ->; discriminate.
  - intros (H1 & H2 & H3 & H4).
    repeat (apply orb_false_iff; split); apply String.eqb_neq; congruence.
Qed.

Lemma has_special_0 (tokens : list string) :
  has_special tokens = 0 -> Forall (fun t => is_special t = false) tokens.
Proof.
  induction tokens as [|t rest IH]; intros H; [constructor|].
  rewrite has_special_cons in H. destruct (is_special t) eqn:Et.
  - exfalso. apply (proj1 (is_special_code t Et)). exact H.
  - constructor; [exact Et|apply IH; exact H].
Qed.

(** X5: [has_special] returns 0 exactly when no token is one of the four
    literals, compared as whole strings; otherwise it returns a code from
    1 to 4. *)
Theorem has_special_0_iff (tokens : list string) :
  (has_special tokens = 0 <->
   forall t, In t tokens -> t <> ";" /\ t <> "<" /\ t <> ">" /\ t <> "|")
  /\ (1 <= has_special tokens <= 4 <->
      exists t, In t tokens /\ (t = ";" \/ t = "<" \/ t = ">" \/ t = "|")).
Proof.
  assert (H0 : has_special tokens = 0 <->
               forall t, In t tokens ->
                 t <> ";" /\ t <> "<" /\ t <> ">" /\ t <> "|").
  { split.
    - intros H t Hin. apply is_special_false.
      apply has_special_0 in H. rewrite Forall_forall in H. auto.
    - intros H. apply has_special_none. apply Forall_forall.
      intros t Hin. apply is_special_false. auto. }
  split; [exact H0|]. split.
  - intros Hr.
    destruct (first_special tokens) as (pre & op & post & -> & _ & Hop); [lia|].
    exists op. split; [apply in_elt|].
    destruct (String.string_dec op ";") as [|N1]; [auto|].
    destruct (String.string_dec op "<") as [|N2]; [auto|].
    destruct (String.string_dec op ">") as [|N3]; [auto|].
    destruct (String.string_dec op "|") as [|N4]; [auto|].
    assert (is_special op = false) by (apply is_special_false; auto).
    congruence.
  - intros (t & Hin & Ht).
    assert (Hne : has_special tokens <> 0).
    { intros E. apply (proj1 H0) with (t := t) in E; [|exact Hin]. tauto. }
    destruct (has_special_range tokens) as [E|[E|[E|[E|E]]]]; lia.
Qed.

Lemma split_None (special_token : string) : forall tokens,
  split special_token tokens = None <-> ~ In special_token tokens.
Proof.
  unfold split. induction tokens as [|t rest IH]; simpl.
  - split; [intros _ []|reflexivity].
  - unfold streq in *. destruct (String.eqb_spec special_token t) as [->|Hne];
      simpl.
    + split; [discriminate|intros H; exfalso; apply H; auto].
    + destruct (split_left special_token rest) as [[l fm]|].
      * split; [discriminate|].
        intros H. exfalso. destruct IH as [_ IH].
        assert (Hn : ~ In special_token rest) by tauto.
        specialize (IH Hn). discriminate.
      * split; [|reflexivity]. intros _ [E|Hin]; [congruence|].
        apply (proj1 IH); [reflexivity|exact Hin].
Qed.

(** X6: [split] gives nothing, where the C loop hands the terminating
    NULL to [strcmp], exactly when the literal is not among the tokens;
    when it gives two sides, they hold all tokens but one. *)
Theorem split_needs_the_literal (special_token : string) (tokens : list string) :
  (split special_token tokens = None <-> ~ In special_token tokens)
  /\ forall left_tokens right_tokens,
       split special_token tokens = Some (left_tokens, right_tokens) ->
       (List.length left_tokens + List.length right_tokens + 1
        = List.length tokens)%nat.
Proof.
  split; [apply split_None|].
  intros l r H. apply split_Some in H. destruct H as [-> _].
  rewrite length_app. simpl. lia.
Qed.

Lemma num_pipes_app (a b : list string) :
  num_pipes (a ++ b) = num_pipes a + num_pipes b.
Proof.
  induction a as [|t a IH]; simpl; [reflexivity|].
  destruct (streq t "|"); rewrite IH; lia.
Qed.

Lemma num_pipes_not_special (tokens : list string) :
  Forall (fun t => is_special t = false) tokens -> num_pipes tokens = 0.
Proof.
  intros H. induction H as [|t rest Ht _ IH]; simpl; [reflexivity|].
  apply is_special_false in Ht. destruct Ht as (_ & _ & _ & Ht).
  unfold streq. destruct (String.eqb_spec t "|"); [contradiction|exact IH].
Qed.

(** X7: [num_pipes] is the number of tokens equal to the pipe literal: it
    adds up over concatenation, is 0 on tokens without a pipe and at least
    1 when [has_special] reports a pipe. *)
Theorem num_pipes_counts (tokens more : list string) :
  num_pipes tokens = Z.of_nat (count_occ String.string_dec tokens "|")
  /\ num_pipes (tokens ++ more) = num_pipes tokens + num_pipes more
  /\ (num_pipes tokens = 0 <-> ~ In "|" tokens)
  /\ (has_special tokens = 4 -> 1 <= num_pipes tokens).
Proof.
  assert (Hc : forall l, num_pipes l
                         = Z.of_nat (count_occ String.string_dec l "|")).
  { induction l as [|t l IH]; [reflexivity|]. simpl. unfold streq.
    destruct (String.eqb_spec t "|") as [->|Hne].
    - destruct (String.string_dec "|" "|"); [|congruence]. rewrite IH. lia.
    - destruct (String.string_dec t "|"); [contradiction|exact IH]. }
  split; [apply Hc|]. split; [apply num_pipes_app|]. split.
  - rewrite Hc. rewrite (count_occ_not_In String.string_dec). lia.
  - intros H4.
    destruct (first_special tokens) as (pre & op & post & -> & Hpre & Hop);
      [rewrite H4; discriminate|].
    rewrite (has_special_app pre op post Hpre Hop) in H4.
    destruct (is_special_code op Hop) as [_ Hlit].
    rewrite H4 in Hlit. simpl in Hlit. subst op.
    rewrite num_pipes_app. simpl.
    rewrite (num_pipes_not_special pre Hpre).
    assert (0 <= num_pipes post) by (rewrite Hc; lia). lia.
Qed.

Lemma has_special_0_iff_witness :
  (forall t, In t ["sort"; "<<"; "a|b"] ->
     t <> ";" /\ t <> "<" /\ t <> ">" /\ t <> "|")
  /\ has_special ["sort"; "<<"; "a|b"] = 0.
Proof.
  assert (H : forall t, In t ["sort"; "<<"; "a|b"] ->
                t <> ";" /\ t <> "<" /\ t <> ">" /\ t <> "|").
  { intros t [<-|[<-|[<-|[]]]]; repeat split; discriminate. }
  split; [exact H|].
  exact (proj2 (proj1 (has_special_0_iff ["sort"; "<<"; "a|b"])) H).
Defined.

Lemma split_needs_the_literal_witness :
  ~ In "|" ["ls"; "-l"]
  /\ split "|" ["ls"; "-l"] = None
  /\ split ";" ["a"; ";"; "b"; ";"; "c"] = Some (["a"], ["b"; ";"; "c"])
  /\ (List.length ["a"] + List.length ["b"; ";"; "c"] + 1
      = List.length ["a"; ";"; "b"; ";"; "c"])%nat.
Proof.
  assert (H1 : ~ In "|" ["ls"; "-l"])
    by (intros [E|[E|[]]]; discriminate).
  assert (H2 : split ";" ["a"; ";"; "b"; ";"; "c"]
               = Some (["a"], ["b"; ";"; "c"])) by reflexivity.
  split; [exact H1|].
  split; [exact (proj2 (proj1 (split_needs_the_literal "|" ["ls"; "-l"])) H1)|].
  split; [exact H2|].
  exact (proj2 (split_needs_the_literal ";" ["a"; ";"; "b"; ";"; "c"]) _ _ H2).
Defined.

Lemma num_pipes_counts_witness :
  has_special ["a"; "|"; "b"; "|"; "c"] = 4
  /\ 1 <= num_pipes ["a"; "|"; "b"; "|"; "c"].
Proof.
  split; [reflexivity|].
  exact (proj2 (proj2 (proj2 (num_pipes_counts ["a"; "|"; "b"; "|"; "c"] [])))
           eq_refl).
Defined.

(** ** Pipelines and redirections *)

Lemma stages_not_special (tokens : list string) :
  Forall (fun t => is_special t = false) tokens -> stages tokens = [tokens].
Proof.
  intros H. induction H as [|t rest Ht _ IH]; [reflexivity|].
  simpl. apply is_special_false in Ht. destruct Ht as (_ & _ & _ & Ht).
  unfold streq. destruct (String.eqb_spec "|" t); [congruence|].
  rewrite IH. reflexivity.
Qed.

Lemma stages_pipe (pre post : list string) :
  Forall (fun t => is_special t = false) pre ->
  stages (pre ++ "|" :: post) = pre :: stages post.
Proof.
  intros H. induction H as [|t rest Ht _ IH]; [reflexivity|].
  simpl. apply is_special_false in Ht. destruct Ht as (_ & _ & _ & Ht).
  unfold streq. destruct (String.eqb_spec "|" t); [congruence|].
  rewrite IH. reflexivity.
Qed.

Lemma stages_not_nil (tokens : list string) : stages tokens <> [].
Proof.
  induction tokens as [|t rest IH]; simpl; [discriminate|].
  destruct (streq "|" t); [discriminate|].
  destruct (stages rest); discriminate.
Qed.

Lemma null_cells_bind {A B : Type} (f f' : A -> proc B) :
  (forall a, null_cells (f a) (f' a)) ->
  forall m m' : proc A,
  null_cells m m' -> null_cells (bind m f) (bind m' f').
Proof.
  intros Hf m m' H. induction H; simpl; try (constructor; auto; fail).
  apply Hf.
Qed.

Lemma null_cells_leaf (tokens : list string) :
  null_cells (leaf tokens) (leaf tokens).
Proof. destruct tokens; repeat constructor. Qed.

Lemma pipeline_spec : forall n tokens,
  (List.length tokens < n)%nat ->
  Forall (fun t => is_special t = false \/ t = "|") tokens ->
  null_cells (execute_special_n n tokens) (pipeline (stages tokens))
  /\ Z.of_nat (List.length (stages tokens)) = num_pipes tokens + 1.
Proof.
  induction n as [|n IH]; intros tokens Hlen Honly; [lia|].
  destruct (Z.eq_dec (has_special tokens) 0) as [E0|Hne].
  - apply has_special_0 in E0.
    rewrite (stages_not_special tokens E0), (execute_special_n_leaf n tokens E0).
    rewrite (num_pipes_not_special tokens E0).
    split; [apply null_cells_leaf|reflexivity].
  - destruct (first_special tokens Hne) as (pre & op & post & -> & Hpre & Hop).
    assert (op = "|").
    { rewrite Forall_forall in Honly.
      destruct (Honly op (in_elt op pre post)) as [E|E]; [congruence|exact E]. }
    subst op.
    apply Forall_app in Honly. destruct Honly as [Hprepipe Honly].
    inversion Honly as [|x l _ Hpost]; subst.
    rewrite length_app in Hlen. simpl in Hlen.
    destruct (IH post) as [Hexec Hcount]; [lia|exact Hpost|].
    destruct (IH pre) as [Hleft _]; [lia|exact Hprepipe|].
    rewrite (stages_not_special pre Hpre) in Hleft. simpl in Hleft.
    destruct (execute_special_n_resolved n pre "|" post Hpre Hop) as [_ ->].
    change (special_code "|") with 4. cbn [resolved].
    rewrite (stages_pipe pre post Hpre), num_pipes_app.
    rewrite (num_pipes_not_special pre Hpre).
    split.
    + apply null_Cells. apply null_Cells.
      cbn [as_read on_array]. rewrite !app_nil_r.
      cbn [pipeline]. destruct (stages post) as [|s1 ss] eqn:Es;
        [exfalso; exact (stages_not_nil post Es)|].
      repeat constructor.
      * exact Hleft.
      * apply null_cells_bind; [intros []; repeat constructor|exact Hexec].
    + simpl List.length. simpl num_pipes. rewrite Nat2Z.inj_succ. lia.
Qed.

(** X8: when the only operators among the tokens are pipes and the cells
    behind the written entries of every array hold NULL, [execute_special]
    builds one process per command between the pipes, the output of each
    piped into the next; each ends in [execvp] on its command, or faults
    when the command is empty; N pipe tokens give N + 1 commands, and the
    length plus one is deep enough. *)
Theorem pipes_make_a_pipeline (tokens : list string) :
  Forall (fun t => is_special t = false \/ t = "|") tokens ->
  null_cells (execute_special tokens) (pipeline (stages tokens))
  /\ Z.of_nat (List.length (stages tokens)) = num_pipes tokens + 1.
Proof. apply (pipeline_spec (S (List.length tokens))). lia. Qed.

Lemma pipes_make_a_pipeline_witness :
  Forall (fun t => is_special t = false \/ t = "|")
    ["cat"; "f"; "|"; "sort"; "|"; "uniq"; "-c"]
  /\ stages ["cat"; "f"; "|"; "sort"; "|"; "uniq"; "-c"]
     = [["cat"; "f"]; ["sort"]; ["uniq"; "-c"]]
  /\ null_cells (execute_special ["cat"; "f"; "|"; "sort"; "|"; "uniq"; "-c"])
       (pipeline (stages ["cat"; "f"; "|"; "sort"; "|"; "uniq"; "-c"]))
  /\ Z.of_nat (List.length (stages ["cat"; "f"; "|"; "sort"; "|"; "uniq"; "-c"]))
     = num_pipes ["cat"; "f"; "|"; "sort"; "|"; "uniq"; "-c"] + 1.
Proof.
  assert (H : Forall (fun t => is_special t = false \/ t = "|")
                ["cat"; "f"; "|"; "sort"; "|"; "uniq"; "-c"]).
  { repeat constructor; (left; reflexivity) || (right; reflexivity). }
  split; [exact H|]. split; [reflexivity|].
  exact (pipes_make_a_pipeline _ H).
Defined.

(** X9: when the first operator is a redirection, only the token after
    it is used, as the file name; what follows the file name, further
    operators included, plays no part. *)
Theorem redirection_drops_the_rest
    (pre : list string) (op file : string) (more : list string) :
  Forall (fun t => is_special t = false) pre ->
  op = "<" \/ op = ">" ->
  execute_special (pre ++ op :: file :: more)
  = execute_special (pre ++ [op; file]).
Proof.
  intros Hpre Hop.
  assert (Hsp : is_special op = true) by (destruct Hop; subst; reflexivity).
  unfold execute_special.
  destruct (execute_special_n_resolved
              (List.length (pre ++ op :: file :: more)) pre op (file :: more)
              Hpre Hsp) as [_ ->].
  destruct (execute_special_n_resolved
              (List.length (pre ++ [op; file])) pre op [file] Hpre Hsp)
    as [_ ->].
  destruct Hop; subst; reflexivity.
Qed.

Lemma redirection_drops_the_rest_witness :
  Forall (fun t => is_special t = false) ["cat"]
  /\ ("<" = "<" \/ "<" = ">")
  /\ execute_special (["cat"] ++ "<" :: "f" :: [";"; "rm"; "f"])
     = execute_special (["cat"] ++ ["<"; "f"]).
Proof.
  assert (H1 : Forall (fun t => is_special t = false) ["cat"])
    by (repeat constructor).
  assert (H2 : "<" = "<" \/ "<" = ">") by (left; reflexivity).
  split; [exact H1|]. split; [exact H2|].
  exact (redirection_drops_the_rest ["cat"] "<" "f" [";"; "rm"; "f"] H1 H2).
Defined.

(** X10: [execute_special] comes back to its caller exactly when the
    tokens hold an operator.  Without one it does what [execvp] does: on
    an empty array the call is made on NULL and faults; otherwise the
    process becomes the program, or prints the error message and exits
    with status 0.  So a child that is given tokens with an operator goes
    on in the code of its parent once the operator is dealt with. *)
Theorem execute_special_comes_back (tokens : list string) :
  (returns (execute_special tokens) tt <-> has_special tokens <> 0)
  /\ (has_special tokens = 0 ->
      execute_special tokens
      = match tokens with
        | [] => Crash
        | file :: _ =>
            Execvp (Some file) tokens
              (Printf ("Invalid input." ++ nl) (Exit 0))
        end).
Proof.
  split; [split|].
  - intros Hr E0. apply has_special_0 in E0.
    rewrite (execute_special_leaf tokens E0) in Hr.
    destruct tokens as [|file args]; simpl in Hr; [inversion Hr|].
    inversion Hr as [| | |f argv failed a Hf| | | | | | | | | | | | |]; subst.
    inversion Hf as [| | | |s k a Hk| | | | | | | | | | | |]; subst.
    inversion Hk.
  - intros Hne. apply execute_special_returns.
    destruct (has_special_range tokens) as [E|[E|[E|[E|E]]]]; lia.
  - intros E0. apply has_special_0 in E0.
    apply (execute_special_leaf tokens E0).
Qed.

Lemma execute_special_comes_back_witness :
  has_special ["sort"; "<"; "f"] <> 0
  /\ returns (execute_special ["sort"; "<"; "f"]) tt
  /\ has_special ["no-such-program"; "-x"] = 0
  /\ execute_special ["no-such-program"; "-x"]
     = Execvp (Some "no-such-program") ["no-such-program"; "-x"]
         (Printf ("Invalid input." ++ nl) (Exit 0)).
Proof.
  assert (H : has_special ["sort"; "<"; "f"] <> 0) by (vm_compute; discriminate).
  split; [exact H|].
  split; [exact (proj2 (proj1 (execute_special_comes_back ["sort"; "<"; "f"])) H)|].
  split; [reflexivity|].
  exact (proj2 (execute_special_comes_back ["no-such-program"; "-x"]) eq_refl).
Defined.

(** ** The slot and the line ending *)

Lemma update_prev_tokens_loop_length (tokens : string) : forall n i,
  String.length (update_prev_tokens_loop n i tokens) = n.
Proof.
  induction n as [|n IH]; intros i; simpl; [reflexivity|].
  rewrite IH. reflexivity.
Qed.

Lemma update_prev_tokens_loop_char_at (tokens : string) : forall n i j,
  (j < n)%nat ->
  char_at (update_prev_tokens_loop n i tokens) j = char_at tokens (i + j).
Proof.
  induction n as [|n IH]; intros i j Hj; [lia|].
  cbn [update_prev_tokens_loop]. destruct j as [|j].
  - rewrite Nat.add_0_r. reflexivity.
  - rewrite char_at_String, IH by lia. f_equal. lia.
Qed.

Lemma update_prev_tokens_loop_ext (a b : string) : forall n i,
  (forall j, (j < n)%nat -> char_at a (i + j) = char_at b (i + j)) ->
  update_prev_tokens_loop n i a = update_prev_tokens_loop n i b.
Proof.
  induction n as [|n IH]; intros i H; [reflexivity|].
  cbn [update_prev_tokens_loop]. f_equal.
  - specialize (H 0%nat). rewrite Nat.add_0_r in H. apply H. lia.
  - apply IH. intros j Hj.
    replace (S i + j)%nat with (i + S j)%nat by lia. apply H. lia.
Qed.

(** X11: [update_prev_tokens] fills the slot with the first [MAX_CHAR]
    bytes of the command buffer, whatever the slot held; copying the slot
    into a slot again changes nothing. *)
Theorem update_prev_tokens_copies (tokens prev_tokens other : string) :
  String.length (update_prev_tokens tokens prev_tokens) = MAX_CHAR
  /\ (forall i, (i < MAX_CHAR)%nat ->
        char_at (update_prev_tokens tokens prev_tokens) i = char_at tokens i)
  /\ update_prev_tokens tokens prev_tokens = update_prev_tokens tokens other
  /\ update_prev_tokens (update_prev_tokens tokens prev_tokens) other
     = update_prev_tokens tokens prev_tokens.
Proof.
  unfold update_prev_tokens. split; [apply update_prev_tokens_loop_length|].
  split; [intros i Hi; apply update_prev_tokens_loop_char_at; exact Hi|].
  split; [reflexivity|].
  apply update_prev_tokens_loop_ext. intros j Hj.
  apply update_prev_tokens_loop_char_at. exact Hj.
Qed.

Lemma update_prev_tokens_copies_witness :
  (3 < MAX_CHAR)%nat
  /\ char_at (update_prev_tokens "ls -l" "old") 3 = char_at "ls -l" 3.
Proof.
  assert (H : (3 < MAX_CHAR)%nat) by (vm_compute; lia).
  split; [exact H|].
  exact (proj1 (proj2 (update_prev_tokens_copies "ls -l" "old" "")) 3%nat H).
Defined.

Lemma chomp_length : forall new_command,
  String.length (chomp new_command) = String.length new_command.
Proof.
  induction new_command as [|c rest IH]; [reflexivity|].
  simpl. destruct (Ascii.eqb c NUL); [reflexivity|].
  destruct (Ascii.eqb c newline); simpl; [reflexivity|].
  rewrite IH. reflexivity.
Qed.

(** X12: the line ending: [new_command[strcspn(new_command, "\n")] = 0]
    keeps the length of the buffer, cuts the C string at its first newline,
    leaves no newline in it, and changes nothing when done twice. *)
Theorem chomp_cuts_at_the_newline (new_command line rest : string) :
  String.length (chomp new_command) = String.length new_command
  /\ contains newline (cstr (chomp new_command)) = false
  /\ chomp (chomp new_command) = chomp new_command
  /\ (contains NUL line = false -> contains newline line = false ->
      cstr (chomp (line ++ String newline rest)) = line).
Proof.
  split; [apply chomp_length|]. split; [apply chomp_cstr|].
  split; [apply chomp_no_newline, chomp_cstr|].
  intros Hn Hl. rewrite (chomp_line line rest Hn Hl).
  apply (cstr_line line rest Hn).
Qed.

Lemma chomp_cuts_at_the_newline_witness :
  contains NUL "echo hi" = false
  /\ contains newline "echo hi" = false
  /\ cstr (chomp ("echo hi" ++ String newline "left over")) = "echo hi".
Proof.
  assert (H1 : contains NUL "echo hi" = false) by reflexivity.
  assert (H2 : contains newline "echo hi" = false) by reflexivity.
  split; [exact H1|]. split; [exact H2|].
  exact (proj2 (proj2 (proj2 (chomp_cuts_at_the_newline "" "echo hi"
                                "left over"))) H1 H2).
Defined.

(** X13: history: once a command has been recorded, a one-token prev
    prints the line of that command, whatever the slot held before, and
    leaves the slot as it is. *)
Theorem prev_prints_the_recorded_line
    (fuel fuel' : nat) (tokens : list string)
    (commands commands' prev_tokens : string) (r : Z * string) :
  tokens <> [] ->
  token tokens 0 <> "exit" ->
  has_special tokens > 0 \/ token tokens 0 <> "prev" ->
  (strlen commands < MAX_CHAR)%nat ->
  contains newline (cstr commands) = false ->
  returns (execute fuel tokens commands prev_tokens) r ->
  execute (S fuel') ["prev"] commands' (snd r)
  = Printf (cstr commands ++ nl) (Ret (0, snd r)).
Proof.
  intros Hne Hexit Hrec Hlen Hnl Hr. apply execute_returns in Hr.
  assert (Hslot : snd r = update_prev_tokens commands prev_tokens).
  { destruct Hr as [[H _]|[(rest & H & _)|[(_ & _ & _ & ->)|
                    (_ & H0 & Hprev & _)]]].
    - contradiction.
    - subst tokens. exfalso. apply Hexit. reflexivity.
    - reflexivity.
    - destruct Hrec as [Hgt|Hn]; [lia|contradiction]. }
  rewrite Hslot.
  rewrite <- (update_prev_tokens_cstr commands prev_tokens Hlen).
  apply execute_prev.
  rewrite (update_prev_tokens_cstr commands prev_tokens Hlen). exact Hnl.
Qed.

Lemma prev_prints_the_recorded_line_witness :
  ["echo"; "hi"; "|"; "wc"] <> []
  /\ token ["echo"; "hi"; "|"; "wc"] 0 <> "exit"
  /\ (has_special ["echo"; "hi"; "|"; "wc"] > 0
      \/ token ["echo"; "hi"; "|"; "wc"] 0 <> "prev")
  /\ (strlen "echo hi | wc" < MAX_CHAR)%nat
  /\ contains newline (cstr "echo hi | wc") = false
  /\ returns (execute 1 ["echo"; "hi"; "|"; "wc"] "echo hi | wc" "cd /tmp")
       (0, update_prev_tokens "echo hi | wc" "cd /tmp")
  /\ execute 1 ["prev"] "prev" (update_prev_tokens "echo hi | wc" "cd /tmp")
     = Printf ("echo hi | wc" ++ nl)
         (Ret (0, update_prev_tokens "echo hi | wc" "cd /tmp")).
Proof.
  assert (H1 : ["echo"; "hi"; "|"; "wc"] <> []) by discriminate.
  assert (H2 : token ["echo"; "hi"; "|"; "wc"] 0 <> "exit") by discriminate.
  assert (H3 : has_special ["echo"; "hi"; "|"; "wc"] > 0
               \/ token ["echo"; "hi"; "|"; "wc"] 0 <> "prev")
    by (left; reflexivity).
  assert (H4 : (strlen "echo hi | wc" < MAX_CHAR)%nat) by (vm_compute; lia).
  assert (H5 : contains newline (cstr "echo hi | wc") = false) by reflexivity.
  assert (H6 : returns
                 (execute 1 ["echo"; "hi"; "|"; "wc"] "echo hi | wc" "cd /tmp")
                 (0, update_prev_tokens "echo hi | wc" "cd /tmp"))
    by (apply execute_records; [discriminate|discriminate|left; reflexivity]).
  repeat (split; [assumption|]).
  exact (prev_prints_the_recorded_line 1 0 _ _ "prev" _ _ H1 H2 H3 H4 H5 H6).
Defined.

(** ** Reading lines: [source], [main] and the tokenizer program *)

Lemma tokenize_elements_Normal (new_command : string) (tokens : list string) :
  tokenize (chomp new_command) = Normal tokens ->
  tokenize_elements new_command = Ret (chomp new_command, tokens).
Proof. intros H. unfold tokenize_elements. rewrite H. reflexivity. Qed.

Lemma streq_neq (a b : string) : a <> b -> streq a b = false.
Proof. intros H. unfold streq. apply String.eqb_neq. exact H. Qed.

(** X14: a line of a sourced file: at the end of the file the loop ends;
    a line whose first token is exit ends it too, the line and the rest of
    the file not being run; a line without any token has [strcmp] called
    on the NULL in [new_tokens[0]]; any other line is dispatched with the
    local array [prev] as its slot. *)
Theorem handle_source_loop_line
    (execute' : list string -> string -> string -> proc (Z * string))
    (fuel : nat) (prev : string) :
  exists k,
    handle_source_loop execute' (S fuel) prev = Fgets k
    /\ k None = Ret tt
    /\ (forall line, tokenize (chomp line) = Normal [] ->
          k (Some line) = Crash)
    /\ (forall line rest, tokenize (chomp line) = Normal ("exit" :: rest) ->
          k (Some line) = Ret tt)
    /\ (forall line t rest,
          tokenize (chomp line) = Normal (t :: rest) -> t <> "exit" ->
          k (Some line)
          = ('(_, prev') <- execute' (t :: rest) (chomp line) prev ;;
             handle_source_loop execute' fuel prev')).
Proof.
  eexists. split; [reflexivity|]. split; [reflexivity|].
  cbv beta iota. split; [|split].
  - intros line H. rewrite (tokenize_elements_Normal _ _ H). reflexivity.
  - intros line rest H. rewrite (tokenize_elements_Normal _ _ H). reflexivity.
  - intros line t rest H Hne. rewrite (tokenize_elements_Normal _ _ H).
    cbn [bind hd_error]. rewrite (streq_neq _ _ Hne). reflexivity.
Qed.

Lemma handle_source_loop_line_witness :
  tokenize (chomp (String newline EmptyString)) = Normal []
  /\ exists k,
       handle_source_loop (execute 0) 1 EmptyString = Fgets k
       /\ k (Some (String newline EmptyString)) = Crash.
Proof.
  assert (H : tokenize (chomp (String newline EmptyString)) = Normal [])
    by reflexivity.
  split; [exact H|].
  destruct (handle_source_loop_line (execute 0) 0 EmptyString)
    as (k & Hk & _ & Hblank & _).
  exists k. split; [exact Hk|exact (Hblank _ H)].
Defined.

Lemma main_returns (fuel : nat) (r : Z) : returns (main fuel) r -> r = 0.
Proof.
  intros Hr. unfold main in Hr.
  inversion Hr as [| | | |s k0 a Hk| | | | | | | | | | | |]; subst.
  inversion Hk as [| | | | | | | | | | | | | | |k1 b a Hb|]; subst.
  apply returns_bind_inv in Hb. destruct Hb as (u & _ & Hbye).
  inversion Hbye as [| | | |s k2 a Hret| | | | | | | | | | | |]; subst.
  inversion Hret. reflexivity.
Qed.

(** X15: a line at the prompt: at the end of the input the shell prints
    a newline and leaves the loop; a line whose first token is exit leaves
    it at once; a line without any token brings the next prompt with the
    slot untouched.  Leaving the loop, [main] prints Bye bye and returns
    0. *)
Theorem main_loop_line (fuel : nat) (prev_tokens : string) :
  exists k,
    main_loop (S fuel) prev_tokens = Printf "shell $ " (Fgets k)
    /\ k None = Printf nl (Ret tt)
    /\ (forall commands rest,
          tokenize (chomp commands) = Normal ("exit" :: rest) ->
          k (Some commands) = Ret tt)
    /\ (forall commands,
          tokenize (chomp commands) = Normal [] ->
          k (Some commands) = main_loop fuel prev_tokens)
    /\ forall r, returns (main (S fuel)) r -> r = 0.
Proof.
  eexists. split; [reflexivity|]. split; [reflexivity|].
  cbv beta iota. split; [|split].
  - intros commands rest H. rewrite (tokenize_elements_Normal _ _ H).
    cbn [bind]. rewrite execute_exit. reflexivity.
  - intros commands H. rewrite (tokenize_elements_Normal _ _ H).
    cbn [bind]. rewrite execute_nil. reflexivity.
  - apply main_returns.
Qed.

Lemma main_loop_line_witness :
  tokenize (chomp ("exit now" ++ nl)) = Normal ("exit" :: ["now"])
  /\ tokenize (chomp nl) = Normal []
  /\ exists k,
       main_loop 1 "ls" = Printf "shell $ " (Fgets k)
       /\ k (Some ("exit now" ++ nl)) = Ret tt
       /\ k (Some nl) = main_loop 0 "ls".
Proof.
  assert (H1 : tokenize (chomp ("exit now" ++ nl)) = Normal ("exit" :: ["now"]))
    by reflexivity.
  assert (H2 : tokenize (chomp nl) = Normal []) by reflexivity.
  split; [exact H1|]. split; [exact H2|].
  destruct (main_loop_line 0 "ls") as (k & Hk & _ & Hexit & Hblank & _).
  exists k. split; [exact Hk|].
  split; [exact (Hexit _ _ H1)|exact (Hblank _ H2)].
Defined.


(** X17: cd without operator never makes a process: with one argument it
    changes to it or reports that it does not exist, with more it reports
    the usage, and with none it changes to the home directory, the one form
    in which a failure ends the shell; each form is recorded. *)
Theorem cd_by_number_of_arguments
    (fuel : nat) (args : list string) (commands prev_tokens : string) :
  has_special args = 0 ->
  execute fuel ("cd" :: args) commands prev_tokens =
  match args with
  | [] =>
      Chdir Home Abort (Ret (0, update_prev_tokens commands prev_tokens))
  | [d] =>
      Chdir (Dir d)
        (Printf ("-shell: cd: given directory does not exist" ++ nl)
           (Ret (0, update_prev_tokens commands prev_tokens)))
        (Ret (0, update_prev_tokens commands prev_tokens))
  | _ :: _ :: _ =>
      Printf ("-shell: cd: too many arguments." ++ nl
              ++ "cd: usage: cd [directory_name]" ++ nl)
        (Ret (0, update_prev_tokens commands prev_tokens))
  end.
Proof.
  intros H0. rewrite execute_unfold. cbv zeta.
  rewrite size_nonempty by discriminate.
  change (streq (token ("cd" :: args) 0) "exit") with false.
  change (streq (token ("cd" :: args) 0) "cd") with true.
  rewrite has_special_cons. change (is_special "cd") with false.
  rewrite H0. cbv iota. change (0 >? 0) with false. cbv iota.
  unfold handle_cd, size.
  destruct args as [|d [|d' more]]; [reflexivity|reflexivity|].
  simpl List.length. rewrite !Nat2Z.inj_succ.
  destruct (Z.eqb_spec (Z.succ (Z.succ (Z.succ (Z.of_nat (List.length more))))) 2)
    as [E|_]; [lia|].
  destruct (Z.eqb_spec (Z.succ (Z.succ (Z.succ (Z.of_nat (List.length more))))) 1)
    as [E|_]; [lia|].
  reflexivity.
Qed.

Lemma cd_by_number_of_arguments_witness :
  has_special ["/tmp"; "/usr"] = 0
  /\ execute 1 ["cd"; "/tmp"; "/usr"] "cd /tmp /usr" "ls"
     = Printf ("-shell: cd: too many arguments." ++ nl
               ++ "cd: usage: cd [directory_name]" ++ nl)
         (Ret (0, update_prev_tokens "cd /tmp /usr" "ls")).
Proof.
  split; [reflexivity|].
  exact (cd_by_number_of_arguments 1 ["/tmp"; "/usr"] "cd /tmp /usr" "ls"
           eq_refl).
Defined.

(** ** The other separator and the quotes *)

Lemma string_app_nil_r (s : string) : s ++ EmptyString = s.
Proof. induction s as [|c s IH]; simpl; [|rewrite IH]; reflexivity. Qed.

Lemma plain_word_parts (w : string) :
  plain_word w = true ->
  w <> EmptyString /\ all_chars plain_char w = true /\ no_separator w = true.
Proof.
  unfold plain_word. intros H.
  apply andb_true_iff in H. destruct H as [H Hsep].
  apply andb_true_iff in H. destruct H as [Hne Hall].
  repeat split; try assumption.
  intros ->. discriminate.
Qed.

(** X18: a backslash followed by t between two plain words separates
    them as a space does and belongs to neither. *)
Theorem backslash_t_separates (w1 w2 : string) :
  plain_word w1 = true ->
  plain_word w2 = true ->
  (String.length (w1 ++ "\t" ++ w2) < MAX_CHAR)%nat ->
  tokenize (w1 ++ "\t" ++ w2) = Normal [w1; w2].
Proof.
  intros H1 H2 Hlen.
  destruct (plain_word_parts w1 H1) as (Hne1 & Hall1 & Hsep1).
  destruct (plain_word_parts w2 H2) as (Hne2 & Hall2 & Hsep2).
  rewrite string_length_app in Hlen. simpl String.length in Hlen.
  pose proof (holds_start (w1 ++ "\t" ++ w2)) as Hh.
  set (buf := w1 ++ "\t" ++ w2) in *.
  unfold tokenize.
  replace MAX_CHAR
    with (String.length w1
          + S (String.length w2
               + (MAX_CHAR - String.length w1 - 1 - String.length w2)))%nat
    at 1 by lia.
  rewrite (tokenize_loop_word w1 ("\t" ++ w2) _ buf vect_new "" 0
             Hall1 Hsep1 eq_refl Hh) by lia.
  apply holds_app in Hh. cbn [append] in Hh.
  apply holds_head in Hh. destruct Hh as [Hb Hh].
  pose proof Hh as Ht. apply holds_head in Ht. destruct Ht as [Ht Hh2].
  cbn [tokenize_loop]. rewrite Hb, Ht.
  assert (L1 : (0 + String.length w1 <? MAX_CHAR)%nat = true)
    by (apply Nat.ltb_lt; lia).
  assert (L2 : (0 + String.length w1 + 1 <? MAX_CHAR)%nat = true)
    by (apply Nat.ltb_lt; lia).
  rewrite L1, L2.
  change (Ascii.eqb "\" NUL) with false.
  change (Ascii.eqb "\" space) with false.
  change (Ascii.eqb "\" backslash) with true.
  change (Ascii.eqb "t" NUL) with false.
  change (Ascii.eqb "t" "t") with true.
  cbn [andb negb]. simpl ("" ++ w1).
  destruct (add_and_reset_cases vect_new w1) as [[_ ->]|[E _]];
    [|contradiction].
  replace (0 + String.length w1 + 2)%nat
    with (0 + String.length w1 + 1 + 1)%nat by lia.
  replace w2 with (w2 ++ "") in Hh2 by apply string_app_nil_r.
  rewrite (tokenize_loop_word w2 "" _ buf _ "" _ Hall2 Hsep2 eq_refl Hh2)
    by lia.
  apply holds_app in Hh2. apply holds_end in Hh2.
  rewrite (tokenize_loop_stop _ _ _ _ _ Hh2). simpl ("" ++ w2).
  destruct (add_and_reset_cases (vect_add vect_new w1) w2) as [[_ ->]|[E _]];
    [reflexivity|contradiction].
Qed.

Lemma backslash_t_separates_witness :
  plain_word "ls" = true
  /\ plain_word "-l" = true
  /\ (String.length ("ls" ++ "\t" ++ "-l") < MAX_CHAR)%nat
  /\ tokenize ("ls" ++ "\t" ++ "-l") = Normal ["ls"; "-l"].
Proof.
  assert (H1 : plain_word "ls" = true) by reflexivity.
  assert (H2 : plain_word "-l" = true) by reflexivity.
  assert (H3 : (String.length ("ls" ++ "\t" ++ "-l") < MAX_CHAR)%nat)
    by (vm_compute; lia).
  split; [exact H1|]. split; [exact H2|]. split; [exact H3|].
  exact (backslash_t_separates "ls" "-l" H1 H2 H3).
Defined.

Lemma handle_quotes_loop_run : forall (run rest : string) fuel curr_string result i,
  contains NUL run = false ->
  contains dquote run = false ->
  holds curr_string (i + 1) (run ++ String dquote rest) ->
  (String.length run < fuel)%nat ->
  handle_quotes_loop fuel curr_string result i
  = Normal (result ++ run, (i + String.length run)%nat).
Proof.
  induction run as [|c run IH]; intros rest fuel buf res i Hn Hq Hh Hfuel;
    (destruct fuel as [|fuel]; [simpl in Hfuel; lia|]);
    simpl in Hh; apply holds_head in Hh; destruct Hh as [Hc Hh];
    cbn [handle_quotes_loop]; rewrite Hc.
  - change (Ascii.eqb dquote NUL) with false.
    change (Ascii.eqb dquote dquote) with true. cbn [negb].
    rewrite string_app_nil_r. simpl. rewrite Nat.add_0_r. reflexivity.
  - simpl in Hn, Hq.
    apply orb_false_iff in Hn. destruct Hn as [Hcn Hn].
    apply orb_false_iff in Hq. destruct Hq as [Hcq Hq].
    rewrite Hcn, Hcq. cbn [negb].
    simpl in Hfuel.
    rewrite (IH rest fuel buf (strncat1 res c) (i + 1)%nat Hn Hq Hh) by lia.
    unfold strncat1. rewrite string_app_assoc. simpl.
    replace (i + S (String.length run))%nat
      with (i + 1 + String.length run)%nat by lia.
    reflexivity.
Qed.

(** The loop at an opening quote whose run is closed at the end of the
    line. *)
Lemma tokenize_loop_quoted (run : string) fuel curr_string vector i :
  contains NUL run = false ->
  contains dquote run = false ->
  holds curr_string i (quoted run) ->
  (i < MAX_CHAR)%nat ->
  tokenize_loop (S fuel) curr_string vector EmptyString i
  = Normal (vector, run).
Proof.
  intros Hn Hq Hh Hi. unfold quoted in Hh.
  apply holds_head in Hh. destruct Hh as [Hd Hrun].
  pose proof Hrun as Hclose. apply holds_app in Hclose.
  apply holds_head in Hclose. destruct Hclose as [Hd2 Hend].
  apply holds_end in Hend.
  assert (Hfuel : (String.length run < String.length curr_string)%nat).
  { assert (Hnn : char_at curr_string (i + 1 + String.length run) <> NUL)
      by (rewrite Hd2; discriminate).
    apply char_at_not_NUL in Hnn. lia. }
  cbn [tokenize_loop]. rewrite Hd.
  apply Nat.ltb_lt in Hi. rewrite Hi.
  change (Ascii.eqb dquote NUL) with false.
  change (Ascii.eqb dquote space) with false.
  change (Ascii.eqb dquote backslash) with false.
  change (Ascii.eqb dquote dquote) with true.
  cbn [andb negb]. change (add_and_reset vector "") with (vector, "").
  cbv iota beta. unfold handle_quotes.
  rewrite (handle_quotes_loop_run run "" _ curr_string "" i Hn Hq Hrun Hfuel).
  simpl ("" ++ run).
  apply tokenize_loop_stop.
  replace (i + String.length run + 2)%nat
    with (i + 1 + String.length run + 1)%nat by lia.
  exact Hend.
Qed.

(** X19: between double quotes a run of bytes without NUL and double
    quote is one token, spaces and operator characters included: alone on
    the line, and as the argument after a plain word. *)
Theorem quoted_run_is_one_token (w run : string) :
  plain_word w = true ->
  run <> EmptyString ->
  contains NUL run = false ->
  contains dquote run = false ->
  (String.length (w ++ " " ++ quoted run) < MAX_CHAR)%nat ->
  tokenize (quoted run) = Normal [run]
  /\ tokenize (w ++ " " ++ quoted run) = Normal [w; run].
Proof.
  intros Hw Hne Hn Hq Hlen.
  destruct (plain_word_parts w Hw) as (Hnew & Hall & Hsep).
  rewrite string_length_app in Hlen. simpl String.length in Hlen.
  split.
  - unfold tokenize. change MAX_CHAR with (S 255).
    rewrite (tokenize_loop_quoted run 255 (quoted run) vect_new 0 Hn Hq
               (holds_start _)) by (unfold MAX_CHAR; lia).
    destruct (add_and_reset_cases vect_new run) as [[_ ->]|[E _]];
      [reflexivity|contradiction].
  - pose proof (holds_start (w ++ " " ++ quoted run)) as Hh.
    set (buf := w ++ " " ++ quoted run) in *.
    unfold tokenize.
    replace MAX_CHAR
      with (String.length w + S (MAX_CHAR - String.length w - 1))%nat
      at 1 by lia.
    rewrite (tokenize_loop_word w (" " ++ quoted run) _ buf vect_new "" 0
               Hall Hsep eq_refl Hh) by lia.
    apply holds_app in Hh. cbn [append] in Hh.
    apply holds_head in Hh. destruct Hh as [Hs Hh].
    cbn [tokenize_loop]. rewrite Hs.
    assert (L1 : (0 + String.length w <? MAX_CHAR)%nat = true)
      by (apply Nat.ltb_lt; lia).
    rewrite L1.
    change (Ascii.eqb " " NUL) with false.
    change (Ascii.eqb " " space) with true.
    cbn [andb negb]. simpl ("" ++ w).
    destruct (add_and_reset_cases vect_new w) as [[_ ->]|[E _]];
      [|contradiction].
    replace (MAX_CHAR - String.length w - 1)%nat
      with (S (MAX_CHAR - String.length w - 2))%nat by lia.
    rewrite (tokenize_loop_quoted run _ buf _ _ Hn Hq Hh) by lia.
    destruct (add_and_reset_cases (vect_add vect_new w) run) as [[_ ->]|[E _]];
      [reflexivity|contradiction].
Qed.

Lemma quoted_run_is_one_token_witness :
  plain_word "grep" = true
  /\ "a|b c" <> EmptyString
  /\ contains NUL "a|b c" = false
  /\ contains dquote "a|b c" = false
  /\ (String.length ("grep" ++ " " ++ quoted "a|b c") < MAX_CHAR)%nat
  /\ tokenize (quoted "a|b c") = Normal ["a|b c"]
  /\ tokenize ("grep" ++ " " ++ quoted "a|b c") = Normal ["grep"; "a|b c"].
Proof.
  assert (H1 : plain_word "grep" = true) by reflexivity.
  assert (H2 : "a|b c" <> EmptyString) by discriminate.
  assert (H3 : contains NUL "a|b c" = false) by reflexivity.
  assert (H4 : contains dquote "a|b c" = false) by reflexivity.
  assert (H5 : (String.length ("grep" ++ " " ++ quoted "a|b c") < MAX_CHAR)%nat)
    by (vm_compute; lia).
  split; [exact H1|]. split; [exact H2|]. split; [exact H3|].
  split; [exact H4|]. split; [exact H5|].
  exact (quoted_run_is_one_token "grep" "a|b c" H1 H2 H3 H4 H5).
Defined.
